(** * vite-console-forward-plugin: a shallow embedding and its properties

    The plugin (vite-console-forward-plugin.ts) has three parts:
    - the client script served as the virtual module
      [virtual:console-forward] ([createLogEntry], [sendLogs], [flushLogs],
      [addToBuffer], the patched console methods);
    - the build hooks [transform] and [transformIndexHtml] that inject the
      bootstrap;
    - the dev-server middleware of [configureServer] that receives batches
      and prints them through per-module loggers ([getOrCreateLogger]).

    JavaScript values are embedded as tagged data, exceptions as an explicit
    completion type, and mutable closures ([logBuffer], [flushTimeout],
    [loggerCache]) as explicit state.  A string is held as the bytes of its
    UTF-8 form.  The code does no arithmetic: a number is known by what
    the code observes of it, its sign and its string form. *)

From Stdlib Require Import ZArith Ascii DecimalString.
From stdpp Require Import gmap strings list.

(** ** The JavaScript runtime pieces the plugin relies on *)

Module JS.

(** *** Abrupt completion *)

Inductive JsError :=
| TypeError (msg : string)
| SyntaxError (msg : string)
| Thrown (what : string).

Inductive Completion (A : Type) :=
| Normal (a : A)
| Throw (e : JsError).
Arguments Normal {A} a.
Arguments Throw {A} e.

Global Instance Completion_ret : MRet Completion := λ A a, Normal a.
Global Instance Completion_bind : MBind Completion := λ A B k c,
  match c with
  | Normal a => k a
  | Throw e => Throw e
  end.

Definition returned {A} (c : Completion A) : bool :=
  match c with Normal _ => true | Throw _ => false end.

(** *** String methods *)

(** [s.startsWith(p)] *)
Definition startsWith (s p : string) : bool := String.prefix p s.

(** [s.slice(n)] for [0 <= n] *)
Fixpoint slice (s : string) (n : nat) : string :=
  match n, s with
  | O, _ => s
  | S _, EmptyString => EmptyString
  | S n', String _ s' => slice s' n'
  end.

(** White space and line terminators beyond ASCII, in UTF-8: U+00A0 in
    two bytes; U+1680, U+2000 to U+200A, U+2028, U+2029, U+202F, U+205F,
    U+3000 and U+FEFF in three. *)
Definition twoByteSpace (c1 c2 : ascii) : bool :=
  (N_of_ascii c1 =? 194)%N && (N_of_ascii c2 =? 160)%N.

Definition threeByteSpace (c1 c2 c3 : ascii) : bool :=
  let '(n1, n2, n3) := (N_of_ascii c1, N_of_ascii c2, N_of_ascii c3) in
  ((n1 =? 225) && (n2 =? 154) && (n3 =? 128))%N
  || ((n1 =? 226) && (n2 =? 128)
      && (((128 <=? n3) && (n3 <=? 138)) || (n3 =? 168) || (n3 =? 169) || (n3 =? 175)))%N
  || ((n1 =? 226) && (n2 =? 129) && (n3 =? 159))%N
  || ((n1 =? 227) && (n2 =? 128) && (n3 =? 128))%N
  || ((n1 =? 239) && (n2 =? 187) && (n3 =? 191))%N.

(** [s.trimStart()] *)
Fixpoint trimStart (s : string) : string :=
  match s with
  | EmptyString => EmptyString
  | String c1 s1 =>
      if Ascii.is_space c1 then trimStart s1
      else match s1 with
           | String c2 s2 =>
               if twoByteSpace c1 c2 then trimStart s2
               else match s2 with
                    | String c3 s3 => if threeByteSpace c1 c2 c3 then trimStart s3 else s
                    | EmptyString => s
                    end
           | EmptyString => s
           end
  end.

(** [s.trimEnd()]: what is white space to its end is taken off. *)
Fixpoint trimEnd (s : string) : string :=
  match s with
  | EmptyString => EmptyString
  | String c s' =>
      if String.eqb (trimStart s) EmptyString then EmptyString else String c (trimEnd s')
  end.

(** [s.trim()] *)
Definition trim (s : string) : string := trimEnd (trimStart s).

(** [s.length]: the UTF-16 code units of the text, one for a character
    of up to three bytes and two for one of four. *)
Fixpoint codeUnits (s : string) : nat :=
  match s with
  | EmptyString => 0
  | String c s' =>
      let n := N_of_ascii c in
      (if (n <? 128)%N || (192 <=? n)%N then 1 else 0)
      + (if (240 <=? n)%N then 1 else 0) + codeUnits s'
  end.

(** [s.split(sep)] for a one-character separator: never empty. *)
Fixpoint split (s : string) (sep : ascii) : list string :=
  match s with
  | EmptyString => [EmptyString]
  | String c s' =>
      if Ascii.eqb c sep then EmptyString :: split s' sep
      else match split s' sep with
           | w :: ws => String c w :: ws
           | [] => [String c EmptyString]
           end
  end.

(** [xs.join(sep)] on an array of strings *)
Definition join (xs : list string) (sep : string) : string := String.concat sep xs.

(** The first occurrence of [needle] in [s], as the text before it and
    the text after it. *)
Fixpoint search (s needle : string) : option (string * string) :=
  if String.prefix needle s then Some (EmptyString, slice s (String.length needle))
  else match s with
       | EmptyString => None
       | String c s' =>
           match search s' needle with
           | Some (before, after) => Some (String c before, after)
           | None => None
           end
       end.

(** [s.includes(needle)] *)
Definition includes (s needle : string) : bool :=
  match search s needle with Some _ => true | None => false end.

(** [s.endsWith(suffix)] *)
Definition endsWith (s suffix : string) : bool :=
  String.prefix (String.rev suffix) (String.rev s).

(** The expansion of the [$]-patterns of a replacement text
    (GetSubstitution with no capture groups): [$$], [$&], [$`], [$'];
    any other [$] stands for itself. *)
Fixpoint substitution (template matched before after : string) : string :=
  match template with
  | String "$" (String "$" rest) => String "$" (substitution rest matched before after)
  | String "$" (String "&" rest) => matched +:+ substitution rest matched before after
  | String "$" (String "`" rest) => before +:+ substitution rest matched before after
  | String "$" (String "'" rest) => after +:+ substitution rest matched before after
  | String c rest => String c (substitution rest matched before after)
  | EmptyString => EmptyString
  end.

(** [s.replace(pattern, replacement)] with a string pattern: the first
    occurrence only. *)
Definition replace (s pattern replacement : string) : string :=
  match search s pattern with
  | Some (before, after) =>
      before +:+ substitution replacement pattern before after +:+ after
  | None => s
  end.

(** *** Numbers

    Of a number the code observes whether it is zero or [NaN]
    (ToBoolean), whether it is above zero, and its string form
    (Number::toString, which tells two numbers apart unless they are
    both zero): a number is known by its sign and its string form. *)

Inductive Sign := NotANumber | Zero | Positive | Negative.

Record Number := {
  sign : Sign;
  numberText : string;
}.

Definition isPositive (n : Number) : bool :=
  match sign n with Positive => true | _ => false end.

Definition isNonZero (n : Number) : bool :=
  match sign n with Positive | Negative => true | _ => false end.

(** An integer that a double holds exactly and that is below 10^21 in
    absolute value, a length or a count for instance: it prints in
    decimal digits. *)
Definition integer (n : Z) : Number :=
  {| sign := match (n ?= 0)%Z with Lt => Negative | Eq => Zero | Gt => Positive end;
     numberText := NilZero.string_of_int (Z.to_int n) |}.

(** [String(n)] for the length of an array *)
Definition lengthToString (n : nat) : string := NilEmpty.string_of_uint (Nat.to_uint n).

(** *** StringToNumber, as far as the sign of its result *)

(** The digit a character is in a radix of up to sixteen. *)
Definition digitIn (radix : N) (c : ascii) : option N :=
  let n := N_of_ascii c in
  let value :=
    if (48 <=? n)%N && (n <=? 57)%N then Some (n - 48)%N
    else if (97 <=? n)%N && (n <=? 102)%N then Some (n - 87)%N
    else if (65 <=? n)%N && (n <=? 70)%N then Some (n - 55)%N
    else None in
  match value with
  | Some d => if (d <? radix)%N then Some d else None
  | None => None
  end.

(** The number written by a text of digits, after those of [acc]. *)
Fixpoint digitsValue (radix acc : N) (s : string) : option N :=
  match s with
  | EmptyString => Some acc
  | String c s' =>
      match digitIn radix c with
      | Some d => digitsValue radix (radix * acc + d)%N s'
      | None => None
      end
  end.

(** One digit or more *)
Definition naturalLiteral (radix : N) (s : string) : option N :=
  if String.eqb s EmptyString then None else digitsValue radix 0 s.

(** The decimal digits a text starts with, and the rest of it. *)
Fixpoint leadingDigits (s : string) : string * string :=
  match s with
  | EmptyString => (EmptyString, EmptyString)
  | String c s' =>
      match digitIn 10 c with
      | Some _ => let '(digits, rest) := leadingDigits s' in (String c digits, rest)
      | None => (EmptyString, s)
      end
  end.

(** ExponentPart, or nothing: [e] or [E], a sign or none, digits. *)
Definition exponentPart (s : string) : option Z :=
  match s with
  | EmptyString => Some 0%Z
  | String c r =>
      if Ascii.eqb c "e" || Ascii.eqb c "E" then
        match r with
        | String "-" digits => (λ n, - Z.of_N n)%Z <$> naturalLiteral 10 digits
        | String "+" digits => Z.of_N <$> naturalLiteral 10 digits
        | digits => Z.of_N <$> naturalLiteral 10 digits
        end
      else None
  end.

(** Whether the double nearest to [n * 10^e] is above zero: whether the
    value is above 2^-1075, half the least double above zero (the tie
    goes to zero).  All the digits count, as they do for Node. *)
Definition roundsAboveZero (n : N) (e : Z) : bool :=
  (0 <? n)%N && ((0 <=? e)%Z || (10 ^ (- e) <? Z.of_N n * 2 ^ 1075)%Z).

(** StrUnsignedDecimalLiteral: [Infinity], or digits with a point
    somewhere or none, one digit at least, and an exponent or none. *)
Definition unsignedDecimalPositive (s : string) : bool :=
  if String.eqb s "Infinity" then true
  else
    let '(whole, afterWhole) := leadingDigits s in
    let '(fraction, afterFraction) :=
      match afterWhole with
      | String "." r => leadingDigits r
      | _ => (EmptyString, afterWhole)
      end in
    match naturalLiteral 10 (whole +:+ fraction), exponentPart afterFraction with
    | Some n, Some e => roundsAboveZero n (e - Z.of_nat (String.length fraction))
    | _, _ => false
    end.

(** NonDecimalIntegerLiteral: [0x], [0o] or [0b] and digits, unsigned. *)
Definition nonDecimalPositive (s : string) : bool :=
  match s with
  | String "0" (String c digits) =>
      let radix :=
        if Ascii.eqb c "x" || Ascii.eqb c "X" then Some 16%N
        else if Ascii.eqb c "o" || Ascii.eqb c "O" then Some 8%N
        else if Ascii.eqb c "b" || Ascii.eqb c "B" then Some 2%N
        else None in
      match radix with
      | Some r => match naturalLiteral r digits with Some n => (0 <? n)%N | None => false end
      | None => false
      end
  | _ => false
  end.

(** [StringToNumber(s) > 0]: false of what is no number, of zero (the
    empty text among it) and below. *)
Definition numericStringPositive (s : string) : bool :=
  let t := trim s in
  match t with
  | String "-" _ => false
  | String "+" r => unsignedDecimalPositive r
  | _ => nonDecimalPositive t || unsignedDecimalPositive t
  end.

(** *** JSON values: what [JSON.parse] returns *)

#[warnings="-register-all"] Inductive Json :=
| JNull
| JBool (b : bool)
| JNum (n : Number)
| JStr (s : string)
| JArr (items : list Json)
| JObj (fields : list (string * Json)).

(** A value or [undefined]. *)
Definition JsonOrUndefined := option Json.

(** ToBoolean *)
Definition truthy (v : JsonOrUndefined) : bool :=
  match v with
  | None | Some JNull => false
  | Some (JBool b) => b
  | Some (JNum n) => isNonZero n
  | Some (JStr s) => negb (String.eqb s EmptyString)
  | Some (JArr _) | Some (JObj _) => true
  end.

(** The own property [k] of a parsed object, which binds a key once. *)
Fixpoint field (k : string) (fields : list (string * Json)) : JsonOrUndefined :=
  match fields with
  | [] => None
  | (k', v) :: rest => if String.eqb k k' then Some v else field k rest
  end.

Definition hasOwn (k : string) (fields : list (string * Json)) : bool :=
  match field k fields with Some _ => true | None => false end.

(** ToString, as a template literal and [join] apply it.  An array
    prints its items joined by commas, [null] items as the empty text.
    A parsed object prints through [Object.prototype.toString] unless it
    has a [toString] of its own: this is then no function, and neither
    it nor any [valueOf] gives a primitive, which is a [TypeError]. *)
Fixpoint toString (v : Json) : Completion string :=
  match v with
  | JNull => Normal "null"
  | JBool true => Normal "true"
  | JBool false => Normal "false"
  | JNum n => Normal (numberText n)
  | JStr s => Normal s
  | JArr items =>
      parts ← (fix each (xs : list Json) : Completion (list string) :=
                 match xs with
                 | [] => Normal []
                 | x :: rest =>
                     part ← match x with JNull => Normal EmptyString | _ => toString x end;
                     parts ← each rest;
                     Normal (part :: parts)
                 end) items;
      Normal (join parts ",")
  | JObj fields =>
      if hasOwn "toString" fields
      then Throw (TypeError "Cannot convert object to primitive value")
      else Normal "[object Object]"
  end.

(** The texts [join] joins: those of the items, left to right. *)
Fixpoint elements (xs : list Json) : Completion (list string) :=
  match xs with
  | [] => Normal []
  | x :: rest =>
      part ← match x with JNull => Normal EmptyString | _ => toString x end;
      parts ← elements rest;
      Normal (part :: parts)
  end.

(** A substitution of a template literal *)
Definition template (v : JsonOrUndefined) : Completion string :=
  match v with
  | None => Normal "undefined"
  | Some x => toString x
  end.

(** Property read [v.k], for the property names the middleware reads
    ([module], [url], [level], [message], [stacks], [extra], [length]):
    reading from [null] or [undefined] throws. *)
Definition get (v : JsonOrUndefined) (k : string) : Completion JsonOrUndefined :=
  match v with
  | None => Throw (TypeError ("Cannot read properties of undefined (reading '" +:+ k +:+ "')"))
  | Some JNull => Throw (TypeError ("Cannot read properties of null (reading '" +:+ k +:+ "')"))
  | Some (JObj fields) => Normal (field k fields)
  | Some (JArr items) =>
      Normal (if String.eqb k "length"
              then Some (JNum (integer (Z.of_nat (length items)))) else None)
  | Some (JStr s) =>
      Normal (if String.eqb k "length"
              then Some (JNum (integer (Z.of_nat (codeUnits s)))) else None)
  | Some (JBool _) | Some (JNum _) => Normal None
  end.

(** [v > 0]: ToPrimitive, which on an array or an object comes to what
    ToString does, then ToNumber. *)
Definition greaterThanZero (v : JsonOrUndefined) : Completion bool :=
  match v with
  | None | Some JNull => Normal false
  | Some (JBool b) => Normal b
  | Some (JNum n) => Normal (isPositive n)
  | Some (JStr s) => Normal (numericStringPositive s)
  | Some (JArr _ as x) | Some (JObj _ as x) =>
      s ← toString x; Normal (numericStringPositive s)
  end.

(** *** JSON.stringify *)

Definition doubleQuote : string := String "034" EmptyString.

Definition hexDigit (n : N) : ascii :=
  ascii_of_N (if (n <? 10)%N then 48 + n else 87 + n).

(** QuoteJSONString, one character at a time. *)
Definition quoteChar (c : ascii) : string :=
  let n := N_of_ascii c in
  if (n =? 34)%N then "\" +:+ doubleQuote
  else if (n =? 92)%N then "\\"
  else if (n =? 8)%N then "\b"
  else if (n =? 12)%N then "\f"
  else if (n =? 10)%N then "\n"
  else if (n =? 13)%N then "\r"
  else if (n =? 9)%N then "\t"
  else if (n <? 32)%N then
    "\u00" +:+ String (hexDigit (n / 16)) (String (hexDigit (n mod 16)) EmptyString)
  else String c EmptyString.

Fixpoint quoteChars (s : string) : string :=
  match s with
  | EmptyString => EmptyString
  | String c s' => quoteChar c +:+ quoteChars s'
  end.

Definition quote (s : string) : string := doubleQuote +:+ quoteChars s +:+ doubleQuote.

(** SerializeJSONProperty with the running [indent] and the [gap] of the
    third argument of [JSON.stringify], on a parsed value: its numbers
    are finite, and its properties are listed in the order in which
    they are enumerated. *)
Fixpoint serialize (gap indent : string) (v : Json) : string :=
  let stepback := indent in
  let indent' := indent +:+ gap in
  let wrap (opening closing : string) (parts : list string) : string :=
    match parts with
    | [] => opening +:+ closing
    | _ =>
        if String.eqb gap EmptyString then opening +:+ join parts "," +:+ closing
        else opening +:+ String "010" indent'
             +:+ join parts ("," +:+ String "010" indent')
             +:+ String "010" stepback +:+ closing
    end in
  match v with
  | JNull => "null"
  | JBool true => "true"
  | JBool false => "false"
  | JNum n => numberText n
  | JStr s => quote s
  | JArr items => wrap "[" "]" (map (serialize gap indent') items)
  | JObj fields =>
      wrap "{" "}"
        (map (fun kv =>
                quote (fst kv) +:+ ":"
                +:+ (if String.eqb gap EmptyString then EmptyString else " ")
                +:+ serialize gap indent' (snd kv)) fields)
  end.

(** [JSON.stringify(v)] and [JSON.stringify(v, null, 2)] *)
Definition stringify (v : Json) : string := serialize EmptyString EmptyString v.
Definition stringifyPretty (v : Json) : string := serialize "  " EmptyString v.

End JS.

Import JS.

(** ** The client script: capture and batching *)

Module Client.

(** *** Arguments of a logging call

    An object is known by what the capture code observes of it: its
    [typeof], whether it is an [Error] instance, the value of its [stack]
    property, and the outcomes of [arg.toString()], [String(arg)] and
    [JSON.parse(JSON.stringify(arg))], each of which can throw. *)

Record ObjectOf (V : Type) := Object {
  callable : bool;
  isError : bool;
  stack : V;
  toStringResult : option string;
  stringResult : option string;
  jsonRoundTrip : option Json;
}.
Arguments Object {V}.
Arguments callable {V}.
Arguments isError {V}.
Arguments stack {V}.
Arguments toStringResult {V}.
Arguments stringResult {V}.
Arguments jsonRoundTrip {V}.

#[warnings="-register-all"] Inductive JsValue :=
| VUndefined
| VNull
| VBool (b : bool)
| VNumber (n : Number)
| VString (s : string)
| VObject (o : ObjectOf JsValue).

Inductive TypeTag := TUndefined | TObject | TBoolean | TNumber | TString | TFunction.

Definition typeof (v : JsValue) : TypeTag :=
  match v with
  | VUndefined => TUndefined
  | VNull => TObject
  | VBool _ => TBoolean
  | VNumber _ => TNumber
  | VString _ => TString
  | VObject o => if callable o then TFunction else TObject
  end.

Definition isString (t : TypeTag) : bool := match t with TString => true | _ => false end.
Definition isObject (t : TypeTag) : bool := match t with TObject => true | _ => false end.
Definition isNull (v : JsValue) : bool := match v with VNull => true | _ => false end.

(** [v instanceof Error] *)
Definition instanceofError (v : JsValue) : bool :=
  match v with
  | VObject o => isError o
  | _ => false
  end.

(** [v.stack]: a primitive has none, [null] and [undefined] throw. *)
Definition getStack (v : JsValue) : Completion JsValue :=
  match v with
  | VUndefined => Throw (TypeError "Cannot read properties of undefined (reading 'stack')")
  | VNull => Throw (TypeError "Cannot read properties of null (reading 'stack')")
  | VObject o => Normal (stack o)
  | VBool _ | VNumber _ | VString _ => Normal VUndefined
  end.

Definition toBoolean (v : JsValue) : bool :=
  match v with
  | VUndefined | VNull => false
  | VBool b => b
  | VNumber n => isNonZero n
  | VString s => negb (String.eqb s EmptyString)
  | VObject _ => true
  end.

Definition fromOutcome (what : string) (r : option string) : Completion string :=
  match r with
  | Some s => Normal s
  | None => Throw (Thrown what)
  end.

(** [v.toString()] *)
Definition callToString (v : JsValue) : Completion string :=
  match v with
  | VUndefined => Throw (TypeError "Cannot read properties of undefined (reading 'toString')")
  | VNull => Throw (TypeError "Cannot read properties of null (reading 'toString')")
  | VBool true => Normal "true"
  | VBool false => Normal "false"
  | VNumber n => Normal (numberText n)
  | VString s => Normal s
  | VObject o => fromOutcome "toString" (toStringResult o)
  end.

(** [String(v)] *)
Definition String_ (v : JsValue) : Completion string :=
  match v with
  | VUndefined => Normal "undefined"
  | VNull => Normal "null"
  | VBool true => Normal "true"
  | VBool false => Normal "false"
  | VNumber n => Normal (numberText n)
  | VString s => Normal s
  | VObject o => fromOutcome "String" (stringResult o)
  end.

(** *** createLogEntry *)

Inductive Level := Log | Warn | Error | Info | Debug.

Global Instance Level_eq_dec : EqDecision Level.
Proof. solve_decision. Defined.

Definition levelName (l : Level) : string :=
  match l with
  | Log => "log"
  | Warn => "warn"
  | Error => "error"
  | Info => "info"
  | Debug => "debug"
  end.

Record LogEntry := {
  level : string;
  message : string;
  timestamp : Z;
  url : option string;
  userAgent : option string;
  module : string;
  stacks : list string;
  extra : list Json;
}.

(** What the script reads of its surroundings: the clock, [window] (absent,
    or with the [href] of its location, itself possibly absent) and
    [navigator] likewise. *)
Record Runtime := {
  now : Z;
  window : option (option string);
  navigator : option (option string);
}.

(** The two arrays [stacks] and [extra] that the [map] callback pushes to. *)
Record Collected := {
  c_stacks : list string;
  c_extra : list Json;
}.

Definition placeholder (n : nat) : string := "[extra#" +:+ lengthToString n +:+ "]".

(** [arg instanceof Error || typeof arg.stack === "string"] *)
Definition errorLike (arg : JsValue) : Completion bool :=
  if instanceofError arg then Normal true
  else s ← getStack arg; Normal (isString (typeof s)).

(** The stack text once the leading copy of the error's string form is
    taken off. *)
Definition stripStack (stackText stringifiedError : string) : string :=
  if startsWith stackText stringifiedError
  then trimStart (slice stackText (String.length stringifiedError))
  else stackText.

(** The callback of [args.map]: the message segment of one argument, and
    the arrays after it. *)
Definition formatArg (arg : JsValue) (acc : Collected) : Completion (string * Collected) :=
  match arg with
  | VUndefined => Normal ("undefined", acc)
  | VString s => Normal (s, acc)
  | _ =>
      like ← errorLike arg;
      if like : bool then
        stringifiedError ← callToString arg;
        st ← getStack arg;
        acc' ← (if toBoolean st then
                  text ← callToString st;
                  let text' := stripStack text stringifiedError in
                  Normal (if String.eqb text' EmptyString then acc
                          else {| c_stacks := c_stacks acc ++ [text']; c_extra := c_extra acc |})
                else Normal acc);
        Normal (stringifiedError, acc')
      else if isObject (typeof arg) && negb (isNull arg) then
        snapshot ← match arg with
                   | VObject {| jsonRoundTrip := Some j |} => Normal j
                   | _ => s ← String_ arg; Normal (JStr s)
                   end;
        let extra' := c_extra acc ++ [snapshot] in
        Normal (placeholder (length extra'), {| c_stacks := c_stacks acc; c_extra := extra' |})
      else
        s ← String_ arg; Normal (s, acc)
  end.

(** [args.map(callback)], left to right. *)
Fixpoint mapArgs (args : list JsValue) (acc : Collected) : Completion (list string * Collected) :=
  match args with
  | [] => Normal ([], acc)
  | arg :: rest =>
      '(segment, acc1) ← formatArg arg acc;
      '(segments, acc2) ← mapArgs rest acc1;
      Normal (segment :: segments, acc2)
  end.

Definition createLogEntry (rt : Runtime) (currentModuleContext : string)
    (lvl : string) (args : list JsValue) : Completion LogEntry :=
  '(segments, acc) ← mapArgs args {| c_stacks := []; c_extra := [] |};
  Normal {|
    level := lvl;
    message := join segments " ";
    timestamp := now rt;
    url := match window rt with Some href => href | None => Some "extension-context" end;
    userAgent := match navigator rt with Some ua => ua | None => Some "extension-context" end;
    module := currentModuleContext;
    stacks := c_stacks acc;
    extra := c_extra acc;
  |}.

(** *** The buffer, the timers and the transport *)

(** The options the script text is generated from. *)
Record Config := {
  levels : list Level;
  SILENT_ON_ERROR : bool;
}.

Definition defaultConfig : Config :=
  {| levels := [Log; Warn; Error; Info; Debug]; SILENT_ON_ERROR := true |}.

Definition FLUSH_DELAY : Z := 100.
Definition MAX_BUFFER_SIZE : nat := 50.
(** The period of [setInterval(flushLogs, 10000)]. *)
Definition FLUSH_INTERVAL : Z := 10000.

(** The module-level variables of the script, the host's timer table, the
    requests handed to [fetch] and the calls made to [originalMethods]. *)
Record State := {
  currentModuleContext : string;
  logBuffer : list LogEntry;
  flushTimeout : option positive;
  timeouts : list (positive * Z);
  intervals : list (positive * Z);
  nextHandle : positive;
  requests : list (list LogEntry);
  printed : list (Level * list JsValue);
}.

(** [setTimeout(flushLogs, delay)]: a fresh positive handle. *)
Definition setTimeout (delay : Z) (st : State) : positive * State :=
  (nextHandle st,
   {| currentModuleContext := currentModuleContext st;
      logBuffer := logBuffer st;
      flushTimeout := flushTimeout st;
      timeouts := timeouts st ++ [(nextHandle st, delay)];
      intervals := intervals st;
      nextHandle := Pos.succ (nextHandle st);
      requests := requests st;
      printed := printed st |}).

(** [setInterval(flushLogs, period)] *)
Definition setInterval (period : Z) (st : State) : positive * State :=
  (nextHandle st,
   {| currentModuleContext := currentModuleContext st;
      logBuffer := logBuffer st;
      flushTimeout := flushTimeout st;
      timeouts := timeouts st;
      intervals := intervals st ++ [(nextHandle st, period)];
      nextHandle := Pos.succ (nextHandle st);
      requests := requests st;
      printed := printed st |}).

(** [clearTimeout(h)] *)
Definition clearTimeout (h : positive) (st : State) : State :=
  {| currentModuleContext := currentModuleContext st;
     logBuffer := logBuffer st;
     flushTimeout := flushTimeout st;
     timeouts := filter (λ t, t.1 ≠ h) (timeouts st);
     intervals := intervals st;
     nextHandle := nextHandle st;
     requests := requests st;
     printed := printed st |}.

Definition setFlushTimeout (v : option positive) (st : State) : State :=
  {| currentModuleContext := currentModuleContext st;
     logBuffer := logBuffer st;
     flushTimeout := v;
     timeouts := timeouts st;
     intervals := intervals st;
     nextHandle := nextHandle st;
     requests := requests st;
     printed := printed st |}.

Definition setLogBuffer (b : list LogEntry) (st : State) : State :=
  {| currentModuleContext := currentModuleContext st;
     logBuffer := b;
     flushTimeout := flushTimeout st;
     timeouts := timeouts st;
     intervals := intervals st;
     nextHandle := nextHandle st;
     requests := requests st;
     printed := printed st |}.

(** [sendLogs(logs)] up to its [await]: the POST is handed to [fetch]. *)
Definition sendLogs (logs : list LogEntry) (st : State) : State :=
  {| currentModuleContext := currentModuleContext st;
     logBuffer := logBuffer st;
     flushTimeout := flushTimeout st;
     timeouts := timeouts st;
     intervals := intervals st;
     nextHandle := nextHandle st;
     requests := requests st ++ [logs];
     printed := printed st |}.

Definition flushLogs (st : State) : State :=
  match logBuffer st with
  | [] => st
  | logsToSend =>
      let st1 := setLogBuffer [] st in
      let st2 := sendLogs logsToSend st1 in
      match flushTimeout st2 with
      | Some h => setFlushTimeout None (clearTimeout h st2)
      | None => st2
      end
  end.

Definition addToBuffer (entry : LogEntry) (st : State) : State :=
  let st1 := setLogBuffer (logBuffer st ++ [entry]) st in
  if decide (MAX_BUFFER_SIZE ≤ length (logBuffer st1)) then flushLogs st1
  else match flushTimeout st1 with
       | None => let '(h, st2) := setTimeout FLUSH_DELAY st1 in setFlushTimeout (Some h) st2
       | Some _ => st1
       end.

(** The state once the script has been evaluated:
    [setInterval(flushLogs, 10000)] is its only timer. *)
Definition emptyState : State :=
  {| currentModuleContext := "unknown";
     logBuffer := [];
     flushTimeout := None;
     timeouts := [];
     intervals := [];
     nextHandle := 1;
     requests := [];
     printed := [] |}.

Definition initialState : State := (setInterval FLUSH_INTERVAL emptyState).2.

(** [setModuleContext(context)] *)
Definition setModuleContext (context : string) (st : State) : State :=
  {| currentModuleContext := context;
     logBuffer := logBuffer st;
     flushTimeout := flushTimeout st;
     timeouts := timeouts st;
     intervals := intervals st;
     nextHandle := nextHandle st;
     requests := requests st;
     printed := printed st |}.

(** [originalMethods.level(...args)] *)
Definition originalMethod (lvl : Level) (args : list JsValue) (st : State) : State :=
  {| currentModuleContext := currentModuleContext st;
     logBuffer := logBuffer st;
     flushTimeout := flushTimeout st;
     timeouts := timeouts st;
     intervals := intervals st;
     nextHandle := nextHandle st;
     requests := requests st;
     printed := printed st ++ [(lvl, args)] |}.

(** How a call ends: the state it leaves, and the exception it threw into
    its caller if any. *)
Record Outcome := {
  final : State;
  thrown : option JsError;
}.

(** [console.level(...args)] once the script has run: patched for the
    levels of the configuration, the browser's own otherwise. *)
Definition console (cfg : Config) (rt : Runtime) (lvl : Level)
    (args : list JsValue) (st : State) : Outcome :=
  let st1 := originalMethod lvl args st in
  if decide (lvl ∈ levels cfg) then
    match createLogEntry rt (currentModuleContext st1) (levelName lvl) args with
    | Normal entry => {| final := addToBuffer entry st1; thrown := None |}
    | Throw e => {| final := st1; thrown := Some e |}
    end
  else {| final := st1; thrown := None |}.

(** How the [fetch] of a batch settles: fulfilled with a response of some
    status, or rejected with an error. *)
Inductive FetchResult :=
| Fulfilled (status : nat)
| Rejected (errorMessage : string).

(** [sendLogs(logs)] from its [await] on. *)
Definition sendLogsSettled (cfg : Config) (rt : Runtime) (r : FetchResult)
    (logs : list LogEntry) (st : State) : Outcome :=
  match r with
  | Fulfilled _ => {| final := st; thrown := None |}
  | Rejected errorMessage =>
      if negb (SILENT_ON_ERROR cfg) then
        console cfg rt Warn
          [VString "[Console Forward] Failed to send logs:"; VString errorMessage] st
      else {| final := st; thrown := None |}
  end.

(** The timed calls of [flushLogs]: a pending timeout fires and leaves the
    timer table; the interval fires and stays. *)
Definition timeoutFires (h : positive) (st : State) : State :=
  if decide (h ∈ (timeouts st).*1) then flushLogs (clearTimeout h st) else st.

Definition intervalFires (st : State) : State := flushLogs st.

(** Enqueuing records one after the other. *)
Definition addAll (entries : list LogEntry) (st : State) : State :=
  foldl (λ s e, addToBuffer e s) st entries.

(** What can happen to the script once it is evaluated: a console call,
    a record enqueued by an error handler, a timer firing, the page
    unloading ([beforeunload] calls [flushLogs]), a [fetch] settling, the
    bootstrap setting the module context. *)
Inductive Event :=
| ConsoleCall (rt : Runtime) (lvl : Level) (args : list JsValue)
| Enqueue (entry : LogEntry)
| TimeoutFires (h : positive)
| IntervalFires
| BeforeUnload
| FetchSettled (rt : Runtime) (r : FetchResult) (logs : list LogEntry)
| SetModuleContext (context : string).

Definition step (cfg : Config) (ev : Event) (st : State) : State :=
  match ev with
  | ConsoleCall rt lvl args => final (console cfg rt lvl args st)
  | Enqueue entry => addToBuffer entry st
  | TimeoutFires h => timeoutFires h st
  | IntervalFires => intervalFires st
  | BeforeUnload => flushLogs st
  | FetchSettled rt r logs => final (sendLogsSettled cfg rt r logs st)
  | SetModuleContext context => setModuleContext context st
  end.

(** The states the script can be in. *)
Inductive reachable (cfg : Config) : State → Prop :=
| reachable_initial : reachable cfg initialState
| reachable_step (ev : Event) (st : State) :
    reachable cfg st → reachable cfg (step cfg ev st).

End Client.

(** ** The build hooks: bootstrap injection *)

Module Plugin.

Definition forwardModuleId : string := "virtual:console-forward".

Record Options := {
  enabled : bool;
  injectPatterns : list string;
  excludePatterns : list string;
  moduleExtractor : string → string;
}.

Definition newline : string := String "010" EmptyString.

(** The three lines put on top of a script. *)
Definition scriptBootstrap (moduleContext : string) : string :=
  "import { setModuleContext } from '" +:+ forwardModuleId +:+ "';" +:+ newline +:+
  "setModuleContext('" +:+ moduleContext +:+ "');" +:+ newline +:+
  "import '" +:+ forwardModuleId +:+ "';" +:+ newline.

(** The script element put into a page. *)
Definition scriptTag (moduleContext : string) : string :=
  "<script type=" +:+ doubleQuote +:+ "module" +:+ doubleQuote +:+ ">" +:+ newline +:+
  "import { setModuleContext } from '" +:+ forwardModuleId +:+ "';" +:+ newline +:+
  "setModuleContext('" +:+ moduleContext +:+ "');" +:+ newline +:+
  "import '" +:+ forwardModuleId +:+ "';" +:+ newline +:+
  "</script>".

Section Hooks.

(** [micromatch.isMatch], the glob matcher, is taken as given. *)
Variable isMatch : string → list string → bool.
Variable options : Options.

(** A hook returns the new text, or nothing ([return;]) to leave the
    artifact as it is. *)
Definition transform (code id : string) : option string :=
  if negb (enabled options) || (length (injectPatterns options) =? 0) then None
  else if endsWith id ".html" then None
  else if (0 <? length (excludePatterns options)) && isMatch id (excludePatterns options)
  then None
  else if isMatch id (injectPatterns options) then
    if includes code forwardModuleId then None
    else Some (scriptBootstrap (moduleExtractor options id) +:+ code)
  else None.

Definition transformIndexHtml (html filename : string) : option string :=
  if negb (enabled options) || (length (injectPatterns options) =? 0) then None
  else
    let id := filename in
    if (0 <? length (excludePatterns options)) && isMatch id (excludePatterns options)
    then None
    else if isMatch id (injectPatterns options) then
      if includes html forwardModuleId then None
      else
        let tag := scriptTag (moduleExtractor options id) in
        if includes html "<head>" then
          Some (replace html "<head>" ("<head>" +:+ newline +:+ tag))
        else if includes html "<body>" then
          Some (replace html "<body>" ("<body>" +:+ newline +:+ tag))
        else if includes html "<html>" then
          Some (replace html "<html>" ("<html>" +:+ newline +:+ tag))
        else Some (tag +:+ newline +:+ html)
    else None.

End Hooks.

(** The text the build goes on with after a hook. *)
Definition outcome (original : string) (result : option string) : string :=
  default original result.

End Plugin.

(** ** The dev-server middleware *)

Module Server.

(** *** Loggers and the terminal *)

(** A key of the [Map]: strings, numbers and booleans by value, an object
    or array by identity.  Two numbers that are not zero are the same
    value when they have the same string form, which stands for them. *)
Inductive MapKey :=
| KeyString (s : string)
| KeyNumber (text : string)
| KeyBoolean (b : bool)
| KeyNull
| KeyObject (identity : nat).

Global Instance MapKey_eq_dec : EqDecision MapKey.
Proof. solve_decision. Defined.

Definition MapKey_encode (k : MapKey) : string + string + bool + unit + nat :=
  match k with
  | KeyString s => inl (inl (inl (inl s)))
  | KeyNumber n => inl (inl (inl (inr n)))
  | KeyBoolean b => inl (inl (inr b))
  | KeyNull => inl (inr tt)
  | KeyObject i => inr i
  end.

Definition MapKey_decode (x : string + string + bool + unit + nat) : MapKey :=
  match x with
  | inl (inl (inl (inl s))) => KeyString s
  | inl (inl (inl (inr n))) => KeyNumber n
  | inl (inl (inr b)) => KeyBoolean b
  | inl (inr _) => KeyNull
  | inr i => KeyObject i
  end.

Global Instance MapKey_countable : Countable MapKey.
Proof. apply (inj_countable' MapKey_encode MapKey_decode). by intros []. Defined.

(** What [createLogger("info", { prefix })] returns: one logger per call. *)
Record Logger := {
  loggerId : nat;
  prefix : string;
}.

Inductive Channel := InfoChannel | WarnChannel | ErrorChannel.

(** The options of a logger call; [error] is absent, [null], or an
    [Error] with a message. *)
Record LogOptions := {
  timestamp : bool;
  error : option (option string);
}.

(** One call of [logger.info], [logger.warn] or [logger.error]. *)
Record Line := {
  sink : Logger;
  channel : Channel;
  text : string;
  logOptions : LogOptions;
}.

Record State := {
  loggerCache : gmap MapKey Logger;
  created : nat;
  identities : nat;
  terminal : list Line;
  diagnostics : list JsError;
}.

Definition initialState : State :=
  {| loggerCache := ∅; created := 0; identities := 0; terminal := []; diagnostics := [] |}.

(** Code that reads and writes the state and may throw; what it did before
    throwing stays done. *)
Definition Handler (A : Type) : Type := State → Completion A * State.

Definition pure {A} (a : A) : Handler A := λ st, (Normal a, st).

Definition lift {A} (c : Completion A) : Handler A := λ st, (c, st).

Definition andThen {A B} (h : Handler A) (k : A → Handler B) : Handler B :=
  λ st, match h st with
        | (Normal a, st1) => k a st1
        | (Throw e, st1) => (Throw e, st1)
        end.

Notation "'let*' x := h 'in' k" := (andThen h (λ x, k))
  (at level 10, x pattern, h at level 100, k at level 200).

(** The key under which the [Map] files a module name. *)
Definition mapKey (moduleName : Json) (st : State) : MapKey :=
  match moduleName with
  | JStr s => KeyString s
  | JNum n => KeyNumber (numberText n)
  | JBool b => KeyBoolean b
  | JNull => KeyNull
  | JArr _ | JObj _ => KeyObject (identities st)
  end.

Definition isReference (moduleName : Json) : bool :=
  match moduleName with
  | JArr _ | JObj _ => true
  | _ => false
  end.

(** The prefix is made before the logger is: when the name cannot be
    printed, no logger is made and nothing is put into the map. *)
Definition getOrCreateLogger (moduleName : Json) : Handler Logger := λ st,
  let key := mapKey moduleName st in
  let identities' := if isReference moduleName then S (identities st) else identities st in
  match loggerCache st !! key with
  | Some logger =>
      (Normal logger,
       {| loggerCache := loggerCache st; created := created st; identities := identities';
          terminal := terminal st; diagnostics := diagnostics st |})
  | None =>
      match toString moduleName with
      | Normal name =>
          let logger := {| loggerId := created st; prefix := "[" +:+ name +:+ "]" |} in
          (Normal logger,
           {| loggerCache := <[key := logger]> (loggerCache st); created := S (created st);
              identities := identities';
              terminal := terminal st; diagnostics := diagnostics st |})
      | Throw e =>
          (Throw e,
           {| loggerCache := loggerCache st; created := created st; identities := identities';
              terminal := terminal st; diagnostics := diagnostics st |})
      end
  end.

(** [logger.info], [logger.warn], [logger.error] *)
Definition emit (l : Line) : Handler unit := λ st,
  (Normal tt,
   {| loggerCache := loggerCache st; created := created st; identities := identities st;
      terminal := terminal st ++ [l]; diagnostics := diagnostics st |}).

(** *** Rendering one record *)

Definition indent (line : string) : string := "    " +:+ line.

Definition indentLines (s : string) : string := join (map indent (split s "010")) Plugin.newline.

(** [log.stacks.map(stack => ...)]: only an array has [map], only a
    string has [split]. *)
Fixpoint mapStacks (items : list Json) : Completion (list string) :=
  match items with
  | [] => Normal []
  | JStr stack :: rest => rest' ← mapStacks rest; Normal (indentLines stack :: rest')
  | _ :: _ => Throw (TypeError "stack.split is not a function")
  end.

Definition stacksMap (stacksValue : JsonOrUndefined) : Completion (list string) :=
  match stacksValue with
  | Some (JArr items) => mapStacks items
  | _ => Throw (TypeError "log.stacks.map is not a function")
  end.

(** [log.stacks.join(sep)] *)
Definition stacksJoin (stacksValue : JsonOrUndefined) (sep : string) : Completion string :=
  match stacksValue with
  | Some (JArr items) => parts ← elements items; Normal (join parts sep)
  | _ => Throw (TypeError "log.stacks.join is not a function")
  end.

(** [v && v.length > 0] *)
Definition nonEmpty (v : JsonOrUndefined) : Completion bool :=
  if truthy v then len ← get v "length"; greaterThanZero len
  else Normal false.

Definition isLevel (v : JsonOrUndefined) (name : string) : bool :=
  match v with
  | Some (JStr s) => String.eqb s name
  | _ => false
  end.

(** The callback of [logs.forEach]. *)
Definition forward (log : Json) : Handler unit :=
  let* moduleValue := lift (get (Some log) "module") in
  let* logger := getOrCreateLogger
                   (match moduleValue with
                    | Some m => if truthy moduleValue then m else JStr "unknown"
                    | None => JStr "unknown"
                    end) in
  let* urlValue := lift (get (Some log) "url") in
  let* location :=
    lift (if truthy urlValue then url ← template urlValue; Normal (" (" +:+ url +:+ ")")
          else Normal EmptyString) in
  let* levelValue := lift (get (Some log) "level") in
  let* level := lift (template levelValue) in
  let* messageValue := lift (get (Some log) "message") in
  let* body := lift (template messageValue) in
  let message := "[" +:+ level +:+ "] " +:+ body +:+ location in
  let* stacksValue := lift (get (Some log) "stacks") in
  let* hasStacks := lift (nonEmpty stacksValue) in
  let* message :=
    (if hasStacks : bool then
       let* frames := lift (stacksMap stacksValue) in
       pure (message +:+ Plugin.newline +:+ join frames Plugin.newline)
     else pure message) in
  let* extraValue := lift (get (Some log) "extra") in
  let* hasExtra := lift (nonEmpty extraValue) in
  let message :=
    if hasExtra : bool then
      message +:+ Plugin.newline +:+ "    Extra data: "
      +:+ indentLines (match extraValue with Some e => stringifyPretty e | None => EmptyString end)
    else message in
  if isLevel levelValue "error" then
    let* hasStacks' := lift (nonEmpty stacksValue) in
    let* error :=
      (if hasStacks' : bool then
         let* joined := lift (stacksJoin stacksValue Plugin.newline) in pure (Some joined)
       else pure None) in
    emit {| sink := logger; channel := ErrorChannel; text := message;
            logOptions := {| timestamp := true; error := Some error |} |}
  else if isLevel levelValue "warn" then
    emit {| sink := logger; channel := WarnChannel; text := message;
            logOptions := {| timestamp := true; error := None |} |}
  else if isLevel levelValue "info" then
    emit {| sink := logger; channel := InfoChannel; text := message;
            logOptions := {| timestamp := true; error := None |} |}
  else if isLevel levelValue "debug" then
    emit {| sink := logger; channel := InfoChannel; text := message;
            logOptions := {| timestamp := true; error := None |} |}
  else
    emit {| sink := logger; channel := InfoChannel; text := message;
            logOptions := {| timestamp := true; error := None |} |}.

(** [logs.forEach(callback)] on the items of an array. *)
Fixpoint forEach (logs : list Json) : Handler unit :=
  match logs with
  | [] => pure tt
  | log :: rest => let* _ := forward log in forEach rest
  end.

(** The [try] block: destructure the parsed body and run [forEach], which
    only an array has. *)
Definition processBody (parsed : Completion Json) : Handler unit :=
  let* payload := lift parsed in
  let* logs := lift (get (Some payload) "logs") in
  match logs with
  | Some (JArr items) => forEach items
  | Some JNull => lift (Throw (TypeError "Cannot read properties of null (reading 'forEach')"))
  | None => lift (Throw (TypeError "Cannot read properties of undefined (reading 'forEach')"))
  | Some _ => lift (Throw (TypeError "logs.forEach is not a function"))
  end.

Record Response := {
  status : nat;
  contentType : string;
  responseBody : Json;
}.

Definition successResponse : Response :=
  {| status := 200; contentType := "application/json";
     responseBody := JObj [("success", JBool true)] |}.

Definition invalidResponse : Response :=
  {| status := 400; contentType := "application/json";
     responseBody := JObj [("error", JStr "Invalid JSON")] |}.

(** The text sent by [res.end(JSON.stringify(...))]. *)
Definition sentText (r : Response) : string := stringify (responseBody r).

(** [server.config.logger.error("Error processing client logs:", ...)] *)
Definition diagnose (e : JsError) (st : State) : State :=
  {| loggerCache := loggerCache st; created := created st; identities := identities st;
     terminal := terminal st; diagnostics := diagnostics st ++ [e] |}.

(** The handler of the request's [end] event.  The body comes in as what
    [JSON.parse(body)] makes of it: the parsed value, or the [SyntaxError]. *)
Definition onEnd (parsed : Completion Json) (st : State) : Response * State :=
  match processBody parsed st with
  | (Normal _, st1) => (successResponse, st1)
  | (Throw e, st1) => (invalidResponse, diagnose e st1)
  end.

(** The middleware: any method but POST goes to [next()]. *)
Definition middleware (method : string) (parsed : Completion Json) (st : State)
    : option (Response * State) :=
  if String.eqb method "POST" then Some (onEnd parsed st) else None.

(** Requests served one after the other. *)
Definition serve (bodies : list (Completion Json)) (st : State) : State :=
  foldl (λ s parsed, (onEnd parsed s).2) st bodies.

End Server.

(** ** Notions the statements below are phrased with, and sample inputs *)

Module Samples.
Import Client.

(** An argument that takes the object branch of [createLogEntry]: of type
    ["object"], no [Error] instance, without a string [stack]. *)
Definition extraArg (arg : JsValue) : bool :=
  match arg with
  | VObject o => negb (callable o) && negb (isError o) && negb (isString (typeof (stack o)))
  | _ => false
  end.

(** How many of [args] are such arguments. *)
Fixpoint extraCount (args : list JsValue) : nat :=
  match args with
  | [] => 0
  | arg :: rest => (if extraArg arg then 1 else 0) + extraCount rest
  end.

(** The stack frames an argument contributes: for an error-like argument
    with a truthy [stack], the stack text without the leading copy of the
    error's string form, when that is not empty. *)
Definition framesOf (arg : JsValue) : list string :=
  match errorLike arg, callToString arg, getStack arg with
  | Normal true, Normal stringifiedError, Normal st =>
      if toBoolean st then
        match callToString st with
        | Normal text =>
            let text' := stripStack text stringifiedError in
            if String.eqb text' EmptyString then [] else [text']
        | Throw _ => []
        end
      else []
  | _, _, _ => []
  end.


(** At most one timeout is pending, it is the one [flushTimeout] holds,
    and it is pending only while records are buffered. *)
Definition consistent (st : State) : Prop :=
  match flushTimeout st with
  | None => timeouts st = []
  | Some h => timeouts st = [(h, FLUSH_DELAY)] ∧ logBuffer st ≠ []
  end.

Definition runtime0 : Runtime :=
  {| now := 0; window := Some (Some "http://localhost:5173/"); navigator := Some (Some "test") |}.

Definition plainObject (snapshot : Json) : JsValue :=
  VObject {| callable := false; isError := false; stack := VUndefined;
             toStringResult := Some "[object Object]"; stringResult := Some "[object Object]";
             jsonRoundTrip := Some snapshot |}.

(** An object that refers to itself: [JSON.stringify] throws on it. *)
Definition circularObject : JsValue :=
  VObject {| callable := false; isError := false; stack := VUndefined;
             toStringResult := Some "[object Object]"; stringResult := Some "[object Object]";
             jsonRoundTrip := None |}.

(** An [Error] with the given string form and [stack]. *)
Definition errorObject (text stackText : string) : JsValue :=
  VObject {| callable := false; isError := true; stack := VString stackText;
             toStringResult := Some text; stringResult := Some text;
             jsonRoundTrip := Some (JObj []) |}.

(** [new Error("boom")] where no frame was recorded
    ([Error.stackTraceLimit = 0]): the stack is the string form alone. *)
Definition errorWithoutFrames : JsValue := errorObject "Error: boom" "Error: boom".

Definition sampleEntry (n : nat) : LogEntry :=
  {| level := "log"; message := lengthToString n; timestamp := Z.of_nat n;
     url := Some "http://localhost:5173/"; userAgent := Some "test";
     module := "app"; stacks := []; extra := [] |}.

(** The options with the warning on delivery failure switched on. *)
Definition verboseConfig : Config :=
  {| levels := [Log; Warn; Error; Info; Debug]; SILENT_ON_ERROR := false |}.

(** The arguments of the warning of [sendLogs]. *)
Definition failureWarning (errorMessage : string) : list JsValue :=
  [VString "[Console Forward] Failed to send logs:"; VString errorMessage].

End Samples.

(** ** The middleware's callback in two steps, and sample payloads *)

Module Records.
Import Server.

(** [log.module || "unknown"] *)
Definition moduleName (log : Json) : Json :=
  match get (Some log) "module" with
  | Normal (Some m) => if truthy (Some m) then m else JStr "unknown"
  | _ => JStr "unknown"
  end.

(** The callback of [forEach] from the second statement on: the message
    text and the logger call it ends with, the logger being known. *)
Definition render (log : Json) (logger : Logger) : Completion Line :=
  urlValue ← get (Some log) "url";
  location ← (if truthy urlValue then url ← template urlValue; Normal (" (" +:+ url +:+ ")")
              else Normal EmptyString);
  levelValue ← get (Some log) "level";
  level ← template levelValue;
  messageValue ← get (Some log) "message";
  body ← template messageValue;
  let message := "[" +:+ level +:+ "] " +:+ body +:+ location in
  stacksValue ← get (Some log) "stacks";
  hasStacks ← nonEmpty stacksValue;
  message ← (if hasStacks : bool then
               frames ← stacksMap stacksValue;
               Normal (message +:+ Plugin.newline +:+ join frames Plugin.newline)
             else Normal message);
  extraValue ← get (Some log) "extra";
  hasExtra ← nonEmpty extraValue;
  let message :=
    if hasExtra : bool then
      message +:+ Plugin.newline +:+ "    Extra data: "
      +:+ indentLines (match extraValue with Some e => stringifyPretty e | None => EmptyString end)
    else message in
  if isLevel levelValue "error" then
    hasStacks' ← nonEmpty stacksValue;
    error ← (if hasStacks' : bool then
               joined ← stacksJoin stacksValue Plugin.newline; Normal (Some joined)
             else Normal None);
    Normal {| sink := logger; channel := ErrorChannel; text := message;
              logOptions := {| timestamp := true; error := Some error |} |}
  else if isLevel levelValue "warn" then
    Normal {| sink := logger; channel := WarnChannel; text := message;
              logOptions := {| timestamp := true; error := None |} |}
  else
    Normal {| sink := logger; channel := InfoChannel; text := message;
              logOptions := {| timestamp := true; error := None |} |}.




(** The records of a request: the items of the [logs] array of the parsed
    body, when the body parses and has one. *)
Definition batchOf (parsed : Completion Json) : option (list Json) :=
  match parsed with
  | Normal payload =>
      match get (Some payload) "logs" with
      | Normal (Some (JArr items)) => Some items
      | _ => None
      end
  | Throw _ => None
  end.

Definition record (lvl msg : string) (more : list (string * Json)) : Json :=
  JObj ([("level", JStr lvl); ("message", JStr msg)] ++ more).

Definition payload (logs : list Json) : Completion Json :=
  Normal (JObj [("logs", JArr logs)]).

(** A batch whose second item is [null]. *)
Definition brokenPayload : Completion Json :=
  payload [record "info" "hello" [("module", JStr "app")]; JNull].

(** A batch whose second record has a [message] with a [toString] of
    its own. *)
Definition unprintablePayload : Completion Json :=
  payload [record "info" "hello" [("module", JStr "app")];
           JObj [("message", JObj [("toString", JNum (integer 1))])]].

(** A record whose [stacks] is no array and has the [length] "1.5". *)
Definition fractionalPayload : Completion Json :=
  payload [JObj [("stacks", JObj [("length", JStr "1.5")])]].

(** A record whose [message] is the number 10^21. *)
Definition exponentPayload : Completion Json :=
  payload [JObj [("level", JStr "log");
                 ("message", JNum {| sign := Positive; numberText := "1e+21" |})]].

(** What [JSON.parse] makes of the body [not json]. *)
Definition notJson : Completion Json :=
  Throw (SyntaxError "Unexpected token o in JSON at position 1").

End Records.

(** ** Sample build options *)

Module PluginSamples.
Import Plugin.

(** A matcher for the samples: everything matches, except against the
    default exclusion. *)
Definition everywhere : string → list string → bool := λ _ patterns,
  match patterns with ["**/node_modules/**"] => false | _ => true end.

Definition sampleOptions : Options :=
  {| enabled := true; injectPatterns := ["**/*.html"; "**/*.ts"];
     excludePatterns := ["**/node_modules/**"]; moduleExtractor := λ _, "app" |}.

(** A text in which no [$] occurs. *)
Fixpoint plain (s : string) : bool :=
  match s with
  | EmptyString => true
  | String c s' => negb (Ascii.eqb c "$") && plain s'
  end.

End PluginSamples.

(** ** The default module extractor *)

Module Extractor.

(** [xs.findIndex(p)]: the first index at which [p] holds, [-1] if none. *)
Fixpoint findIndex {A} (p : A → bool) (xs : list A) : Z :=
  match xs with
  | [] => -1
  | x :: rest =>
      if p x then 0
      else let i := findIndex p rest in
           if (i <? 0)%Z then -1 else (i + 1)%Z
  end.

(** [xs[i]] for an integer index: [undefined] out of range. *)
Definition at_ {A} (xs : list A) (i : Z) : option A :=
  if (i <? 0)%Z then None else xs !! Z.to_nat i.

(** [defaultModuleExtractor(id)]; [None] stands for [undefined]. *)
Definition defaultModuleExtractor (id : string) : option string :=
  let parts := split id "/" in
  let srcIndex := findIndex (λ part, String.eqb part "src") parts in
  if (0 <=? srcIndex)%Z && (srcIndex <? Z.of_nat (length parts) - 2)%Z then
    at_ parts (srcIndex + 1)
  else
    let parentDir := at_ parts (Z.of_nat (length parts) - 2) in
    match parentDir with
    | Some dir =>
        if negb (String.eqb dir EmptyString) && negb (String.eqb dir ".")
           && negb (String.eqb dir "..")
        then Some dir
        else
          match at_ parts (Z.of_nat (length parts) - 1) with
          | Some filename =>
              if negb (String.eqb filename EmptyString) then at_ (split filename ".") 0
              else Some "unknown"
          | None => Some "unknown"
          end
    | None =>
        match at_ parts (Z.of_nat (length parts) - 1) with
        | Some filename =>
            if negb (String.eqb filename EmptyString) then at_ (split filename ".") 0
            else Some "unknown"
        | None => Some "unknown"
        end
    end.

(** A text in which the character [c] does not occur. *)
Fixpoint without (c : ascii) (s : string) : bool :=
  match s with
  | EmptyString => true
  | String x s' => negb (Ascii.eqb x c) && without c s'
  end.

(** The path made of the given segments. *)
Definition path (segments : list string) : string := join segments "/".

(** The name a file gives when no directory does: what comes before its
    first dot, or ["unknown"] for the empty name. *)
Definition stem (filename : string) : string :=
  if String.eqb filename EmptyString then "unknown"
  else match split filename "." with
       | first :: _ => first
       | [] => EmptyString
       end.

End Extractor.

(** ** Where a page takes the script tag *)

Module Pages.
Import Plugin.

(** The tag after which [transformIndexHtml] puts the script: the first
    of [<head>], [<body>], [<html>] that the page has, if any. *)
Definition anchor (html : string) : option string :=
  if includes html "<head>" then Some "<head>"
  else if includes html "<body>" then Some "<body>"
  else if includes html "<html>" then Some "<html>"
  else None.

End Pages.

(** ** The records a script has taken charge of *)

Module Ledger.
Import Client.

(** The records given to [fetch] so far, batch after batch, followed by
    those still in the buffer. *)
Definition handedOver (st : State) : list LogEntry :=
  concat (requests st) ++ logBuffer st.

(** A batch of at least one and at most [MAX_BUFFER_SIZE] records. *)
Definition wellSized (batch : list LogEntry) : Prop :=
  0 < length batch ≤ MAX_BUFFER_SIZE.

End Ledger.

(** ** What the middleware accepts, and the wire form of a record *)

Module Intake.
Import Server Records.

Definition isStringItem (x : Json) : bool :=
  match x with JStr _ => true | _ => false end.

(** What ToString prints: a value in which no object with a [toString]
    of its own is met on the way, which leads through the items of
    arrays. *)
Fixpoint printable (v : Json) : bool :=
  match v with
  | JArr items => forallb printable items
  | JObj fields => negb (hasOwn "toString" fields)
  | _ => true
  end.

Definition printableOrUndefined (v : JsonOrUndefined) : bool :=
  match v with
  | Some x => printable x
  | None => true
  end.

(** The property [k] of a record, [undefined] when there is none. *)
Definition property (log : Json) (k : string) : JsonOrUndefined :=
  match get (Some log) k with
  | Normal v => v
  | Throw _ => None
  end.

(** A value that is falsy, or whose [length] can be compared with zero. *)
Definition measurable (v : JsonOrUndefined) : bool :=
  match v with
  | Some x => negb (truthy v) || printableOrUndefined (property x "length")
  | None => true
  end.

(** A value that is truthy and whose [length] is above zero. *)
Definition filled (v : JsonOrUndefined) : bool :=
  match nonEmpty v with
  | Normal b => b
  | Throw _ => false
  end.

Definition arrayOfStrings (v : JsonOrUndefined) : bool :=
  match v with
  | Some (JArr items) => forallb isStringItem items
  | _ => false
  end.

(** A record on which the callback of [forEach] throws: [null]; one
    whose [module], [url], [level] or [message] cannot be printed; one
    whose [stacks] or [extra] is truthy with a [length] that cannot be
    compared with zero; one whose [stacks] has a [length] above zero
    without being an array of strings. *)
Definition malformed (log : Json) : bool :=
  match log with
  | JNull => true
  | _ =>
      negb (printableOrUndefined (property log "module"))
      || negb (printableOrUndefined (property log "url"))
      || negb (printableOrUndefined (property log "level"))
      || negb (printableOrUndefined (property log "message"))
      || negb (measurable (property log "stacks"))
      || (filled (property log "stacks") && negb (arrayOfStrings (property log "stacks")))
      || negb (measurable (property log "extra"))
  end.

(** An object or array used as a key is a new one: the map holds none
    of the identities to come. *)
Definition fresh (st : State) : Prop :=
  ∀ (i : nat) (logger : Logger),
    loggerCache st !! KeyObject i = Some logger → i < identities st.

(** Every logger filed under a string is prefixed with that string in
    brackets. *)
Definition named (st : State) : Prop :=
  ∀ (s : string) (logger : Logger),
    loggerCache st !! KeyString s = Some logger → prefix logger = "[" +:+ s +:+ "]".

(** The loggers in the map are those made so far: as many as were made,
    each with its own number. *)
Definition numbered (st : State) : Prop :=
  size (loggerCache st) = created st
  ∧ (∀ k logger, loggerCache st !! k = Some logger → loggerId logger < created st)
  ∧ (∀ k1 k2 l1 l2,
       loggerCache st !! k1 = Some l1 → loggerCache st !! k2 = Some l2 →
       loggerId l1 = loggerId l2 → k1 = k2).

(** The logger call a level leads to. *)
Definition channelFor (lvl : string) : Channel :=
  if String.eqb lvl "error" then ErrorChannel
  else if String.eqb lvl "warn" then WarnChannel
  else InfoChannel.

(** The name a module context is filed under. *)
Definition sinkName (moduleContext : string) : string :=
  if String.eqb moduleContext EmptyString then "unknown" else moduleContext.

(** The first line printed for a record of the client. *)
Definition headline (entry : Client.LogEntry) : string :=
  "[" +:+ Client.level entry +:+ "] " +:+ Client.message entry
  +:+ match Client.url entry with
      | Some u => if String.eqb u EmptyString then EmptyString else " (" +:+ u +:+ ")"
      | None => EmptyString
      end.

Section Wire.

(** [Date.prototype.toISOString], which JSON.stringify applies to the
    timestamp, is taken as given. *)
Variable toISOString : Z → string.

Definition optionalField (k : string) (v : option string) : list (string * Json) :=
  match v with
  | Some s => [(k, JStr s)]
  | None => []
  end.

(** What [JSON.parse] gives back of the [JSON.stringify] of a record of
    the client: a field that is [undefined] is left out. *)
Definition wire (entry : Client.LogEntry) : Json :=
  JObj ([("level", JStr (Client.level entry));
         ("message", JStr (Client.message entry));
         ("timestamp", JStr (toISOString (Client.timestamp entry)))]
        ++ optionalField "url" (Client.url entry)
        ++ optionalField "userAgent" (Client.userAgent entry)
        ++ [("module", JStr (Client.module entry));
            ("stacks", JArr (JStr <$> Client.stacks entry));
            ("extra", JArr (Client.extra entry))]).

(** The parsed body of the request [sendLogs] makes of a batch. *)
Definition wireBody (logs : list Client.LogEntry) : Completion Json :=
  Normal (JObj [("logs", JArr (wire <$> logs))]).

End Wire.

End Intake.

(** * Properties *)

(** ** Runtime pieces on concrete inputs *)

Example stringify_success :
  stringify (JObj [("success", JBool true)])
  = "{" +:+ doubleQuote +:+ "success" +:+ doubleQuote +:+ ":true}".
Proof. reflexivity. Qed.

Example stringifyPretty_nested :
  stringifyPretty (JArr [JObj [("a", JNum (integer 1))]; JArr []]) =
  join ["["; "  {"; "    " +:+ doubleQuote +:+ "a" +:+ doubleQuote +:+ ": 1"; "  },"; "  []"; "]"]
       Plugin.newline.
Proof. reflexivity. Qed.

Example numeric_strings :
  map numericStringPositive
    ["1.5"; "1e3"; "0x10"; "0b101"; "Infinity"; ".5"; "5."; " 12 "; "3e-324"]
  = [true; true; true; true; true; true; true; true; true]
  ∧ map numericStringPositive
      [""; "0"; "-1"; "."; "1e"; "0x"; "+0x10"; "1 2"; "2e-324"; "[object Object]"]
    = [false; false; false; false; false; false; false; false; false; false].
Proof. by vm_compute. Qed.

Example split_lines :
  split ("a" +:+ Plugin.newline +:+ "b" +:+ Plugin.newline) "010" = ["a"; "b"; ""].
Proof. reflexivity. Qed.

Example replace_first :
  replace "<head><head>" "<head>" "<head>X$&$$" = "<head>X<head>$<head>".
Proof. reflexivity. Qed.

(** Running the completion monad. *)
Ltac exec := cbv [mbind Completion_bind mret Completion_ret] in *; simpl in *.

(** Case analysis on whatever the goal or a hypothesis branches on. *)
Ltac branch :=
  match goal with
  | H : context [match ?x with _ => _ end] |- _ =>
      first [is_var x; destruct x | destruct x eqn:?]; simpl in H
  | |- context [match ?x with _ => _ end] =>
      first [is_var x; destruct x | destruct x eqn:?]
  | H : context [if ?x then _ else _] |- _ =>
      first [is_var x; destruct x | destruct x eqn:?]; simpl in H
  | |- context [if ?x then _ else _] =>
      first [is_var x; destruct x | destruct x eqn:?]
  end.

(** ** Capture *)

Module CaptureProps.
Import Client Samples.

Example entry_mixed :
  createLogEntry runtime0 "app" "log"
    [VString "user"; plainObject (JObj [("id", JNum (integer 7))]); VUndefined; VNumber (integer 3); circularObject]
  = Normal {| level := "log"; message := "user [extra#1] undefined 3 [extra#2]";
              timestamp := 0; url := Some "http://localhost:5173/"; userAgent := Some "test";
              module := "app"; stacks := [];
              extra := [JObj [("id", JNum (integer 7))]; JStr "[object Object]"] |}.
Proof. reflexivity. Qed.

Example entry_error :
  createLogEntry runtime0 "checkout" "error"
    [errorObject "Error: boom" ("Error: boom" +:+ Plugin.newline +:+ "    at f (a.js:1:1)")]
  = Normal {| level := "error"; message := "Error: boom";
              timestamp := 0; url := Some "http://localhost:5173/"; userAgent := Some "test";
              module := "checkout"; stacks := ["at f (a.js:1:1)"]; extra := [] |}.
Proof. reflexivity. Qed.

(** C1 (the code departs from the claim).  A patched console method called
    with [null] does not complete: reading [arg.stack] in [createLogEntry]
    throws a [TypeError], nothing catches it, and the exception reaches
    the caller of [console.log]; the record is never enqueued. *)
Theorem console_null_throws (rt : Runtime) (st : State) :
  let result := console defaultConfig rt Log [VNull] st in
  thrown result = Some (TypeError "Cannot read properties of null (reading 'stack')")
  ∧ logBuffer (final result) = logBuffer st
  ∧ requests (final result) = requests st.
Proof. by cbv. Qed.



(** The segment and the arrays after one argument, case by case. *)
Lemma formatArg_extra (o : ObjectOf JsValue) (v : Json) (acc : Collected) :
  extraArg (VObject o) = true →
  jsonRoundTrip o = Some v →
  formatArg (VObject o) acc
  = Normal (placeholder (S (length (c_extra acc))),
            {| c_stacks := c_stacks acc; c_extra := c_extra acc ++ [v] |}).
Proof.
  destruct o as [cal err st ts sr js]; simpl.
  intros H ->. unfold errorLike; simpl.
  destruct cal, err; try discriminate; simpl in *.
  destruct (isString (typeof st)); try discriminate; simpl.
  by rewrite length_app, Nat.add_1_r.
Qed.

Lemma formatArg_extra_length (arg : JsValue) (acc acc' : Collected) (segment : string) :
  formatArg arg acc = Normal (segment, acc') →
  length (c_extra acc') = length (c_extra acc) + (if extraArg arg then 1 else 0)
  ∧ ∃ more, c_extra acc' = c_extra acc ++ more.
Proof.
  destruct arg as [| |b|n|s|o]; simpl.
  - intros [= <- <-]. split; [lia | by exists []; rewrite app_nil_r].
  - discriminate.
  - destruct b; intros [= <- <-]; (split; [lia | by exists []; rewrite app_nil_r]).
  - intros [= <- <-]. split; [lia | by exists []; rewrite app_nil_r].
  - intros [= <- <-]. split; [lia | by exists []; rewrite app_nil_r].
  - destruct o as [cal err st ts sr js]; unfold errorLike; simpl.
    destruct err; simpl.
    + rewrite andb_false_r; simpl.
      destruct ts as [str|]; simpl; [|discriminate].
      destruct (toBoolean st); simpl.
      * destruct (callToString st) as [text|]; simpl; [|discriminate].
        destruct (String.eqb _ _); intros [= <- <-]; simpl;
          (split; [lia | by exists []; rewrite app_nil_r]).
      * intros [= <- <-]. split; [lia | by exists []; rewrite app_nil_r].
    + destruct (isString (typeof st)) eqn:Hst; simpl.
      * rewrite andb_false_r.
        destruct ts as [str|]; simpl; [|discriminate].
        destruct (toBoolean st); simpl.
        -- destruct (callToString st) as [text|]; simpl; [|discriminate].
           destruct (String.eqb _ _); intros [= <- <-]; simpl;
             (split; [lia | by exists []; rewrite app_nil_r]).
        -- intros [= <- <-]. split; [lia | by exists []; rewrite app_nil_r].
      * destruct cal; simpl.
        -- destruct sr; simpl; [|discriminate].
           intros [= <- <-]. split; [lia | by exists []; rewrite app_nil_r].
        -- destruct js as [j|]; simpl.
           ++ intros [= <- <-]; simpl. rewrite length_app; simpl. split; [lia | by eexists].
           ++ destruct sr; simpl; [|discriminate].
              intros [= <- <-]; simpl. rewrite length_app; simpl. split; [lia | by eexists].
Qed.


Lemma formatArg_stacks (arg : JsValue) (acc acc' : Collected) (segment : string) :
  formatArg arg acc = Normal (segment, acc') →
  c_stacks acc' = c_stacks acc ++ framesOf arg.
Proof.
  destruct arg as [| |b|n|s|o]; unfold framesOf; simpl;
    try (intros; exec; simplify_eq; by rewrite ?app_nil_r).
  - destruct b; intros; exec; simplify_eq; by rewrite app_nil_r.
  - destruct o as [cal err st ts sr js]; unfold errorLike; simpl.
    destruct err; simpl.
    + destruct ts as [str|]; simpl; [|discriminate].
      destruct (toBoolean st); simpl.
      * destruct (callToString st) as [text|]; simpl; [|discriminate].
        destruct (String.eqb _ _); intros [= <- <-]; simpl; by rewrite ?app_nil_r.
      * intros [= <- <-]. by rewrite app_nil_r.
    + destruct (isString (typeof st)) eqn:Hst; simpl.
      * destruct ts as [str|]; simpl; [|discriminate].
        destruct (toBoolean st); simpl.
        -- destruct (callToString st) as [text|]; simpl; [|discriminate].
           destruct (String.eqb _ _); intros [= <- <-]; simpl; by rewrite ?app_nil_r.
        -- intros [= <- <-]. by rewrite app_nil_r.
      * intros H. rewrite app_nil_r.
        exec. repeat (branch; simplify_eq; exec; try done).
Qed.

Lemma formatArg_errorLike (arg : JsValue) (acc acc' : Collected) (segment : string) :
  errorLike arg = Normal true →
  formatArg arg acc = Normal (segment, acc') →
  callToString arg = Normal segment ∧ c_extra acc' = c_extra acc.
Proof.
  destruct arg as [| |b|n|s|o]; try discriminate.
  intros Hlike. simpl. rewrite Hlike. simpl.
  destruct (toStringResult o) as [str|]; exec; [|discriminate].
  destruct (toBoolean (stack o)); exec.
  - destruct (callToString (stack o)) as [text|]; exec; [|discriminate].
    destruct (String.eqb _ _); by intros [= <- <-].
  - by intros [= <- <-].
Qed.

Lemma mapArgs_length (args : list JsValue) :
  ∀ acc segments acc',
    mapArgs args acc = Normal (segments, acc') →
    length segments = length args
    ∧ length (c_extra acc') = length (c_extra acc) + extraCount args
    ∧ (∃ more, c_extra acc' = c_extra acc ++ more)
    ∧ c_stacks acc' = c_stacks acc ++ concat (framesOf <$> args).
Proof.
  induction args as [|arg rest IH]; intros acc segments acc'; simpl.
  - intros [= <- <-]. rewrite app_nil_r.
    repeat split; [lia | by exists []; rewrite app_nil_r].
  - destruct (formatArg arg acc) as [[segment acc1]|] eqn:Harg; simpl; [|discriminate].
    destruct (mapArgs rest acc1) as [[segments' acc2]|] eqn:Hrest; simpl; [|discriminate].
    intros [= <- <-].
    destruct (IH _ _ _ Hrest) as (Hlen & Hextra & [more Hmore] & Hstacks).
    destruct (formatArg_extra_length _ _ _ _ Harg) as [Hone [more1 Hmore1]].
    apply formatArg_stacks in Harg.
    repeat split; simpl.
    + by rewrite Hlen.
    + lia.
    + exists (more1 ++ more). by rewrite Hmore, Hmore1, app_assoc.
    + by rewrite Hstacks, Harg, app_assoc.
Qed.

Lemma mapArgs_segments (args : list JsValue) :
  ∀ acc segments acc',
    mapArgs args acc = Normal (segments, acc') →
    (∀ i s, args !! i = Some (VString s) → segments !! i = Some s)
    ∧ (∀ i arg, args !! i = Some arg → errorLike arg = Normal true →
         ∃ str, callToString arg = Normal str ∧ segments !! i = Some str)
    ∧ (∀ i o v, args !! i = Some (VObject o) → extraArg (VObject o) = true →
         jsonRoundTrip o = Some v →
         segments !! i
         = Some (placeholder (length (c_extra acc) + S (extraCount (take i args))))
         ∧ c_extra acc' !! (length (c_extra acc) + extraCount (take i args)) = Some v).
Proof.
  induction args as [|arg rest IH]; intros acc segments acc'; simpl.
  - intros _. repeat split; intros; simplify_eq.
  - destruct (formatArg arg acc) as [[segment acc1]|] eqn:Harg; simpl; [|discriminate].
    destruct (mapArgs rest acc1) as [[segments' acc2]|] eqn:Hrest; simpl; [|discriminate].
    intros [= <- <-].
    destruct (IH _ _ _ Hrest) as (Hstr & Herr & Hobj).
    destruct (mapArgs_length _ _ _ _ Hrest) as (_ & _ & [more Hmore] & _).
    destruct (formatArg_extra_length _ _ _ _ Harg) as [Hone _].
    split; [|split].
    + intros [|i] s Hi; simpl in *; [|by eauto].
      simplify_eq. simpl in Harg. by simplify_eq.
    + intros [|i] a Hi Hlike; simpl in *; [|by eauto].
      simplify_eq. destruct (formatArg_errorLike _ _ _ _ Hlike Harg) as [-> _]. eauto.
    + intros [|i] o v Hi Hx Hj; simpl in Hi; simpl take; simpl extraCount.
      * simplify_eq. rewrite (formatArg_extra _ _ _ Hx Hj) in Harg. simplify_eq.
        rewrite Nat.add_0_r, Nat.add_1_r. simpl in Hmore. rewrite Hmore.
        rewrite <- app_assoc. by rewrite lookup_app_r, Nat.sub_diag by lia.
      * destruct (Hobj i o v Hi Hx Hj) as [Hseg Hval]. simpl.
        rewrite Hseg, <- Hval, Hone.
        split; [do 2 f_equal | f_equal]; destruct (extraArg arg); lia.
Qed.

Lemma createLogEntry_inv (rt : Runtime) (ctx lvl : string) (args : list JsValue)
    (entry : LogEntry) :
  createLogEntry rt ctx lvl args = Normal entry →
  ∃ segments acc,
    mapArgs args {| c_stacks := []; c_extra := [] |} = Normal (segments, acc)
    ∧ message entry = join segments " "
    ∧ stacks entry = c_stacks acc
    ∧ extra entry = c_extra acc
    ∧ level entry = lvl
    ∧ module entry = ctx.
Proof.
  unfold createLogEntry.
  destruct (mapArgs args _) as [[segments acc]|]; exec; [|discriminate].
  intros [= <-]. by exists segments, acc.
Qed.

(** What an error-like argument contributes, once its formatting went
    through. *)
Lemma formatArg_errorLike_frames (arg : JsValue) (acc acc' : Collected) (segment : string) :
  errorLike arg = Normal true →
  formatArg arg acc = Normal (segment, acc') →
  ∃ st, getStack arg = Normal st
    ∧ if toBoolean st
      then ∃ text, callToString st = Normal text
             ∧ framesOf arg = (if String.eqb (stripStack text segment) EmptyString
                               then [] else [stripStack text segment])
      else framesOf arg = [].
Proof.
  destruct arg as [| |b|n|s|o]; try discriminate.
  intros Hlike. unfold framesOf. simpl. rewrite Hlike. simpl.
  destruct (toStringResult o) as [str|]; exec; [|discriminate].
  intros H. exists (stack o). split; [done|].
  destruct (toBoolean (stack o)); exec; [|by simplify_eq].
  destruct (callToString (stack o)) as [text|]; exec; [|discriminate].
  exists text. split; [done|].
  by injection H as -> _.
Qed.

Lemma mapArgs_errorLike (args : list JsValue) :
  ∀ acc segments acc',
    mapArgs args acc = Normal (segments, acc') →
    ∀ i arg, args !! i = Some arg → errorLike arg = Normal true →
      ∃ st, getStack arg = Normal st
        ∧ ∃ str, segments !! i = Some str
        ∧ if toBoolean st
          then ∃ text, callToString st = Normal text
                 ∧ framesOf arg = (if String.eqb (stripStack text str) EmptyString
                                   then [] else [stripStack text str])
          else framesOf arg = [].
Proof.
  induction args as [|arg rest IH]; intros acc segments acc'; simpl.
  - intros _ i arg Hi. simplify_eq.
  - destruct (formatArg arg acc) as [[segment acc1]|] eqn:Harg; exec; [|discriminate].
    destruct (mapArgs rest acc1) as [[segments' acc2]|] eqn:Hrest; exec; [|discriminate].
    intros [= <- <-] [|i] a Hi Hlike; simpl in *.
    + simplify_eq.
      destruct (formatArg_errorLike_frames _ _ _ _ Hlike Harg) as (st & Hst & Hframes).
      exists st. split; [done|]. by exists segment.
    + eauto.
Qed.

(** C2.  In the record of a logging call, an argument that is an object
    (not a string, not error-like, not null) and goes through the JSON
    round trip has the segment "[extra#n]" at its own position of the
    message, n being its 1-based rank among the extra arguments of the
    call; item n-1 of [extra] is the round-tripped value; the segment
    depends on n alone, not on the object; the segments keep the order of
    the arguments (a string argument is its own segment, in place). *)
Theorem extra_placeholder (rt : Runtime) (ctx lvl : string) (args : list JsValue)
    (entry : LogEntry) (i : nat) (o : ObjectOf JsValue) (v : Json) :
  createLogEntry rt ctx lvl args = Normal entry →
  args !! i = Some (VObject o) →
  extraArg (VObject o) = true →
  jsonRoundTrip o = Some v →
  let n := S (extraCount (take i args)) in
  ∃ segments,
    message entry = join segments " "
    ∧ length segments = length args
    ∧ segments !! i = Some ("[extra#" +:+ lengthToString n +:+ "]")
    ∧ extra entry !! (n - 1) = Some v
    ∧ ∀ j s, args !! j = Some (VString s) → segments !! j = Some s.
Proof.
  intros Hentry Hi Hx Hj n.
  destruct (createLogEntry_inv _ _ _ _ _ Hentry)
    as (segments & acc & Hmap & Hmsg & _ & Hextra & _).
  destruct (mapArgs_length _ _ _ _ Hmap) as (Hlen & _).
  destruct (mapArgs_segments _ _ _ _ Hmap) as (Hstr & _ & Hobj).
  destruct (Hobj i o v Hi Hx Hj) as [Hseg Hval]. simpl in Hseg, Hval.
  exists segments. repeat split; try done.
  - rewrite Hextra. subst n. simpl. by rewrite Nat.sub_0_r.
Qed.

Lemma extra_placeholder_witness :
  ∃ segments,
    message {| level := "log"; message := "user [extra#1]"; timestamp := 0;
               url := Some "http://localhost:5173/"; userAgent := Some "test";
               module := "app"; stacks := []; extra := [JObj [("id", JNum (integer 7))]] |}
    = join segments " "
    ∧ length segments = 2
    ∧ segments !! 1 = Some "[extra#1]"
    ∧ [JObj [("id", JNum (integer 7))]] !! 0 = Some (JObj [("id", JNum (integer 7))])
    ∧ ∀ j s, [VString "user"; plainObject (JObj [("id", JNum (integer 7))])] !! j = Some (VString s)
             → segments !! j = Some s.
Proof.
  exact (extra_placeholder runtime0 "app" "log"
           [VString "user"; plainObject (JObj [("id", JNum (integer 7))])] _ 1 _ _
           eq_refl eq_refl eq_refl eq_refl).
Defined.

(** C4, as the code has it.  In the record of a logging call, the segment
    of an error-like argument is the error's own string form, and the
    argument adds to [stacks] at most one frame: when its [stack] is
    truthy, the stack text with the leading copy of that string form taken
    off and leading white space trimmed, provided this text is not empty.
    Nothing is added when [stack] is falsy or when nothing is left of it,
    so [stacks] can be empty. *)
Theorem error_argument_capture (rt : Runtime) (ctx lvl : string) (args : list JsValue)
    (entry : LogEntry) :
  createLogEntry rt ctx lvl args = Normal entry →
  ∃ segments,
    message entry = join segments " "
    ∧ length segments = length args
    ∧ stacks entry = concat (framesOf <$> args)
    ∧ ∀ i arg, args !! i = Some arg → errorLike arg = Normal true →
        ∃ str st,
          callToString arg = Normal str
          ∧ segments !! i = Some str
          ∧ getStack arg = Normal st
          ∧ if toBoolean st
            then ∃ text, callToString st = Normal text
                   ∧ framesOf arg
                     = (if String.eqb (stripStack text str) EmptyString then []
                        else [if startsWith text str
                              then trimStart (slice text (String.length str))
                              else text])
            else framesOf arg = [].
Proof.
  intros Hentry.
  destruct (createLogEntry_inv _ _ _ _ _ Hentry)
    as (segments & acc & Hmap & Hmsg & Hstacks & _).
  destruct (mapArgs_length _ _ _ _ Hmap) as (Hlen & _ & _ & Hframes).
  destruct (mapArgs_segments _ _ _ _ Hmap) as (_ & Herr & _).
  exists segments. repeat split; try done.
  - by rewrite Hstacks, Hframes.
  - intros i arg Hi Hlike.
    destruct (Herr i arg Hi Hlike) as (str & Hstr & Hseg).
    destruct (mapArgs_errorLike _ _ _ _ Hmap i arg Hi Hlike) as (st & Hst & str' & Hseg' & Hfr).
    rewrite Hseg in Hseg'. simplify_eq.
    by exists str', st.
Qed.

Lemma error_argument_capture_witness :
  ∃ segments,
    "Error: boom" = join segments " "
    ∧ length segments = 1
    ∧ ["at f (a.js:1:1)"]
      = concat (framesOf <$> [errorObject "Error: boom"
                                ("Error: boom" +:+ Plugin.newline +:+ "    at f (a.js:1:1)")])
    ∧ ∀ i arg,
        [errorObject "Error: boom"
           ("Error: boom" +:+ Plugin.newline +:+ "    at f (a.js:1:1)")] !! i = Some arg →
        errorLike arg = Normal true →
        ∃ str st,
          callToString arg = Normal str
          ∧ segments !! i = Some str
          ∧ getStack arg = Normal st
          ∧ if toBoolean st
            then ∃ text, callToString st = Normal text
                   ∧ framesOf arg
                     = (if String.eqb (stripStack text str) EmptyString then []
                        else [if startsWith text str
                              then trimStart (slice text (String.length str))
                              else text])
            else framesOf arg = [].
Proof.
  exact (error_argument_capture runtime0 "checkout" "error"
           [errorObject "Error: boom" ("Error: boom" +:+ Plugin.newline +:+ "    at f (a.js:1:1)")]
           _ eq_refl).
Defined.

(** C4 as stated fails: an [Error] whose stack is its string form alone is
    error-like, is captured without an exception, and leaves [stacks]
    empty. *)
Lemma error_without_frames_no_stack :
  instanceofError errorWithoutFrames = true
  ∧ errorLike errorWithoutFrames = Normal true
  ∧ ∃ entry,
      createLogEntry runtime0 "unknown" "error" [errorWithoutFrames] = Normal entry
      ∧ message entry = "Error: boom"
      ∧ stacks entry = [].
Proof. repeat split. eexists. repeat split. Qed.

End CaptureProps.

(** ** Batching and transport *)

Module TransportProps.
Import Client Samples.

Lemma addToBuffer_pending (e : LogEntry) (st : State) (h : positive) :
  flushTimeout st = Some h →
  S (length (logBuffer st)) < MAX_BUFFER_SIZE →
  addToBuffer e st = setLogBuffer (logBuffer st ++ [e]) st.
Proof.
  intros Hh Hlen. unfold addToBuffer. simpl.
  rewrite length_app. simpl.
  destruct (decide _) as [Hge|_]; [lia|].
  by rewrite Hh.
Qed.

Lemma addAll_pending (entries : list LogEntry) :
  ∀ st h,
    flushTimeout st = Some h →
    length (logBuffer st) + length entries < MAX_BUFFER_SIZE →
    addAll entries st = setLogBuffer (logBuffer st ++ entries) st.
Proof.
  unfold addAll.
  induction entries as [|e rest IH]; intros st h Hh Hlen; simpl.
  - rewrite app_nil_r. by destruct st.
  - simpl in Hlen. rewrite (addToBuffer_pending e st h) by (done || lia).
    rewrite (IH _ h); simpl; [|done|rewrite length_app; simpl; lia].
    by rewrite <- app_assoc.
Qed.

Lemma flushLogs_consistent (st : State) :
  (match flushTimeout st with
   | None => timeouts st = []
   | Some h => timeouts st = [(h, FLUSH_DELAY)] ∨ timeouts st = []
   end) →
  (flushTimeout st ≠ None → logBuffer st ≠ []) →
  consistent (flushLogs st).
Proof.
  unfold consistent, flushLogs. intros Htable Hbuffer.
  destruct (logBuffer st) as [|e b] eqn:Hb.
  - destruct (flushTimeout st); [exfalso; by apply Hbuffer|done].
  - simpl. destruct (flushTimeout st) as [h|] eqn:Hh; simpl; rewrite ?Hh; simpl; [|done].
    destruct Htable as [-> | ->]; simpl; [|done].
    by rewrite filter_cons_False by (simpl; intros Hne; by apply Hne).
Qed.

Lemma addToBuffer_consistent (e : LogEntry) (st : State) :
  consistent st → consistent (addToBuffer e st).
Proof.
  unfold addToBuffer. intros Hst. destruct (decide _) as [_|_].
  - apply flushLogs_consistent; simpl.
    + unfold consistent in Hst. destruct (flushTimeout st); [left; apply Hst|done].
    + intros _. by destruct (logBuffer st).
  - unfold consistent in *. simpl.
    destruct (flushTimeout st) as [h|] eqn:Hh; simpl; rewrite ?Hh; simpl.
    + split; [apply Hst|]. by destruct (logBuffer st).
    + rewrite Hst. split; [done|]. by destruct (logBuffer st).
Qed.

Lemma console_consistent (cfg : Config) (rt : Runtime) (lvl : Level)
    (args : list JsValue) (st : State) :
  consistent st → consistent (final (console cfg rt lvl args st)).
Proof.
  intros Hst. unfold console.
  destruct (decide _); [|done].
  destruct (createLogEntry _ _ _ _); [|done].
  by apply addToBuffer_consistent.
Qed.

Lemma reachable_consistent (cfg : Config) (st : State) :
  reachable cfg st → consistent st.
Proof.
  induction 1 as [|ev st _ IH]; [done|].
  destruct ev as [rt lvl args|entry|h| | |rt r logs|context]; simpl.
  - by apply console_consistent.
  - by apply addToBuffer_consistent.
  - unfold timeoutFires. destruct (decide _) as [Hin|_]; [|done].
    unfold consistent in IH.
    destruct (flushTimeout st) as [h'|] eqn:Hh; [|by rewrite IH in Hin; inversion Hin].
    destruct IH as [Htable Hbuffer].
    apply flushLogs_consistent; simpl; rewrite Hh; [|done].
    rewrite Htable in *. simpl in Hin. apply list_elem_of_singleton in Hin as ->.
    right. by rewrite filter_cons_False by (simpl; intros Hne; by apply Hne).
  - unfold consistent in IH. apply flushLogs_consistent.
    + destruct (flushTimeout st); [left; apply IH|done].
    + destruct (flushTimeout st); [intros _; apply IH|done].
  - unfold consistent in IH. apply flushLogs_consistent.
    + destruct (flushTimeout st); [left; apply IH|done].
    + destruct (flushTimeout st); [intros _; apply IH|done].
  - destruct r as [status|errorMessage]; simpl; [done|].
    destruct (SILENT_ON_ERROR cfg); simpl; [done|].
    by apply console_consistent.
  - done.
Qed.

(** From an empty buffer with no timeout pending, fewer than
    [MAX_BUFFER_SIZE] records stay in the buffer behind one timeout. *)
Lemma addAll_below (entries : list LogEntry) (st : State) :
  logBuffer st = [] → flushTimeout st = None → timeouts st = [] →
  entries ≠ [] →
  length entries < MAX_BUFFER_SIZE →
  addAll entries st
  = setLogBuffer entries (setFlushTimeout (Some (nextHandle st)) (setTimeout FLUSH_DELAY st).2).
Proof.
  destruct entries as [|e rest]; [done|]. intros Hb Hh Ht _ Hlen. simpl in Hlen.
  change (addAll (e :: rest) st) with (addAll rest (addToBuffer e st)).
  assert (addToBuffer e st
          = setLogBuffer [e] (setFlushTimeout (Some (nextHandle st)) (setTimeout FLUSH_DELAY st).2))
    as ->.
  { unfold addToBuffer. simpl. by rewrite Hb, Hh. }
  rewrite (addAll_pending rest _ (nextHandle st)); [done|done|].
  simpl. lia.
Qed.

Lemma addAll_snoc (entries : list LogEntry) (e : LogEntry) (st : State) :
  addAll (entries ++ [e]) st = addToBuffer e (addAll entries st).
Proof. unfold addAll. by rewrite foldl_app. Qed.

Lemma flushLogs_timeouts (st : State) (t : positive * Z) :
  t ∈ timeouts (flushLogs st) → t ∈ timeouts st.
Proof.
  unfold flushLogs. destruct (logBuffer st) as [|e b]; [done|]. simpl.
  destruct (flushTimeout st) as [h|]; simpl; [|done].
  by intros [_ ?]%list_elem_of_filter.
Qed.

(** C5.  In any state the script can reach in which the queue is empty:
    50 records (the threshold) are sent at once as one batch, in order,
    and leave neither a buffered record nor a pending timeout; 49 records
    cause no request and leave exactly one pending timeout, set for
    [FLUSH_DELAY]; and in any state whatever, when enqueuing puts a
    timeout into the timer table, none was pending before. *)
Theorem threshold_flush (cfg : Config) :
  MAX_BUFFER_SIZE = 50
  ∧ (∀ (st0 : State) (entries : list LogEntry),
       reachable cfg st0 → logBuffer st0 = [] → length entries = 50 →
       let st := addAll entries st0 in
       requests st = requests st0 ++ [entries] ∧ logBuffer st = []
       ∧ flushTimeout st = None ∧ timeouts st = [])
  ∧ (∀ (st0 : State) (entries : list LogEntry),
       reachable cfg st0 → logBuffer st0 = [] → length entries = 49 →
       let st := addAll entries st0 in
       requests st = requests st0 ∧ logBuffer st = entries
       ∧ ∃ h, flushTimeout st = Some h ∧ timeouts st = [(h, FLUSH_DELAY)])
  ∧ (∀ (st : State) (e : LogEntry) (t : positive * Z),
       t ∈ timeouts (addToBuffer e st) → t ∉ timeouts st → flushTimeout st = None).
Proof.
  assert (∀ st0, reachable cfg st0 → logBuffer st0 = [] →
                 flushTimeout st0 = None ∧ timeouts st0 = []) as Hquiet.
  { intros st0 Hreach%reachable_consistent Hb. unfold consistent in Hreach.
    destruct (flushTimeout st0); [by destruct Hreach|done]. }
  split; [done|]. split; [|split].
  - intros st0 entries Hreach Hb Hlen st.
    destruct (Hquiet _ Hreach Hb) as [Hh Ht].
    destruct (exists_last (l := entries)) as (pre & e & ->);
      [by intros ->|].
    rewrite length_app in Hlen. simpl in Hlen.
    subst st. rewrite addAll_snoc.
    rewrite addAll_below; [|done|done|done| |unfold MAX_BUFFER_SIZE; lia].
    2:{ intros ->. simpl in Hlen. lia. }
    unfold addToBuffer. simpl. rewrite length_app. simpl.
    destruct (decide _) as [_|Hlt]; [|unfold MAX_BUFFER_SIZE in Hlt; lia].
    unfold flushLogs. simpl.
    destruct (pre ++ [e]) as [|x xs] eqn:Hpre; [by destruct pre|].
    simpl. rewrite Ht. simpl.
    by rewrite filter_cons_False by (simpl; intros Hne; by apply Hne).
  - intros st0 entries Hreach Hb Hlen st. subst st.
    destruct (Hquiet _ Hreach Hb) as [Hh Ht].
    rewrite addAll_below; [|done|done|done| |unfold MAX_BUFFER_SIZE; lia].
    2:{ intros ->. simpl in Hlen. lia. }
    simpl. rewrite Ht. repeat split. by exists (nextHandle st0).
  - intros st e t Hin Hnot.
    destruct (flushTimeout st) as [h|] eqn:Hh; [|done].
    exfalso. apply Hnot. revert Hin. unfold addToBuffer.
    destruct (decide _) as [_|_].
    + intros Hin%flushLogs_timeouts. done.
    + simpl. by rewrite Hh.
Qed.

Lemma threshold_flush_witness :
  (let st := addAll (sampleEntry <$> seq 0 50) initialState in
   requests st = [] ++ [sampleEntry <$> seq 0 50] ∧ logBuffer st = []
   ∧ flushTimeout st = None ∧ timeouts st = [])
  ∧ (let st := addAll (sampleEntry <$> seq 0 49) initialState in
     requests st = [] ∧ logBuffer st = sampleEntry <$> seq 0 49
     ∧ ∃ h, flushTimeout st = Some h ∧ timeouts st = [(h, FLUSH_DELAY)]).
Proof.
  split.
  - exact (proj1 (proj2 (threshold_flush defaultConfig)) initialState
             (sampleEntry <$> seq 0 50) (reachable_initial _) eq_refl eq_refl).
  - exact (proj1 (proj2 (proj2 (threshold_flush defaultConfig))) initialState
             (sampleEntry <$> seq 0 49) (reachable_initial _) eq_refl eq_refl).
Defined.

(** C6 as stated fails: in the units in which the coalescing delay is 100,
    the period of the recurring flush is not 10, and it is not below the
    coalescing delay. *)
Lemma safety_interval_not_ten :
  FLUSH_DELAY = 100%Z
  ∧ intervals initialState = [(1%positive, FLUSH_INTERVAL)]
  ∧ FLUSH_INTERVAL ≠ 10%Z
  ∧ ¬ (FLUSH_INTERVAL < FLUSH_DELAY)%Z.
Proof. repeat split; unfold FLUSH_INTERVAL, FLUSH_DELAY; lia. Qed.

(** C6, as the code has it.  In the units (milliseconds) in which the
    coalescing delay is 100, the script sets one recurring timer, of
    period 10000: a hundred times the coalescing delay.  Each time it
    fires, whatever is buffered is sent and the buffer is left empty, so
    a buffered record stays undelivered for at most that period. *)
Theorem safety_interval :
  FLUSH_DELAY = 100%Z
  ∧ intervals initialState = [(1%positive, 10000%Z)]
  ∧ FLUSH_INTERVAL = (100 * FLUSH_DELAY)%Z
  ∧ ∀ st : State,
      logBuffer (intervalFires st) = []
      ∧ (logBuffer st ≠ [] → requests (intervalFires st) = requests st ++ [logBuffer st]).
Proof.
  repeat split.
  - unfold intervalFires, flushLogs. destruct (logBuffer st) eqn:Hb; [done|].
    simpl. by destruct (flushTimeout st).
  - unfold intervalFires, flushLogs. destruct (logBuffer st) eqn:Hb; [done|].
    intros _. simpl. by destruct (flushTimeout st).
Qed.

Lemma safety_interval_witness :
  logBuffer (intervalFires (addToBuffer (sampleEntry 0) initialState)) = []
  ∧ requests (intervalFires (addToBuffer (sampleEntry 0) initialState)) = [[sampleEntry 0]].
Proof.
  split.
  - exact (proj1 (proj2 (proj2 (proj2 safety_interval))
                   (addToBuffer (sampleEntry 0) initialState))).
  - refine (proj2 (proj2 (proj2 (proj2 safety_interval))
                     (addToBuffer (sampleEntry 0) initialState)) _).
    simpl. discriminate.
Defined.

(** C7 as stated fails: with silencing off, a batch answered by a
    response of status 500 is dropped without any warning. *)
Lemma non_2xx_no_warning :
  SILENT_ON_ERROR verboseConfig = false
  ∧ printed (final (sendLogsSettled verboseConfig runtime0 (Fulfilled 500)
                      [sampleEntry 0] initialState)) = [].
Proof. by split. Qed.

(** C7, as the code has it.  However the [fetch] of a batch settles,
    nothing is thrown and the batch is not looked at again: neither sent
    anew nor put back.  A response, whatever its status, changes nothing
    and warns of nothing.  A rejection (network error, server absent)
    prints the warning exactly when silencing is off; with silencing on,
    or with [console.warn] not among the patched levels, the rest of the
    state is as it was. *)
Theorem delivery_failure (cfg : Config) (rt : Runtime) (r : FetchResult)
    (logs : list LogEntry) (st : State) :
  let result := sendLogsSettled cfg rt r logs st in
  thrown result = None
  ∧ result = sendLogsSettled cfg rt r [] st
  ∧ printed (final result)
    = printed st ++ match r with
                    | Rejected errorMessage =>
                        if SILENT_ON_ERROR cfg then []
                        else [(Warn, failureWarning errorMessage)]
                    | Fulfilled _ => []
                    end
  ∧ match r with
    | Fulfilled _ => final result = st
    | Rejected errorMessage =>
        if SILENT_ON_ERROR cfg then final result = st
        else if decide (Warn ∈ levels cfg) then True
             else final result = originalMethod Warn (failureWarning errorMessage) st
    end.
Proof.
  destruct r as [status|errorMessage]; simpl.
  - rewrite app_nil_r. by destruct st.
  - destruct (SILENT_ON_ERROR cfg); simpl.
    + rewrite app_nil_r. by destruct st.
    + unfold console. destruct (decide (Warn ∈ levels cfg)); simpl; [|done].
      exec. repeat split.
      unfold addToBuffer. simpl.
      destruct (decide _); [|by destruct (flushTimeout st)].
      unfold flushLogs. simpl.
      destruct (logBuffer st ++ _) eqn:Hb; simpl; [done|].
      by destruct (flushTimeout st).
Qed.

End TransportProps.

(** ** Bootstrap injection *)

Module PluginProps.
Import Plugin PluginSamples.

Example transform_injects :
  transform everywhere sampleOptions "console.log(1)" "/src/app/main.ts"
  = Some ("import { setModuleContext } from 'virtual:console-forward';" +:+ newline
          +:+ "setModuleContext('app');" +:+ newline
          +:+ "import 'virtual:console-forward';" +:+ newline
          +:+ "console.log(1)").
Proof. reflexivity. Qed.

Example transformIndexHtml_injects :
  transformIndexHtml everywhere sampleOptions "<html><head></head></html>" "/index.html"
  = Some ("<html><head>" +:+ newline +:+ scriptTag "app" +:+ "</head></html>").
Proof. reflexivity. Qed.

(** C9.  An artifact, script or page, whose text already contains the
    identifier of the forward module is left as it is by both hooks: they
    return nothing, and the build goes on with the same text. *)
Theorem injection_idempotent (isMatch : string → list string → bool) (options : Options)
    (text id : string) :
  includes text forwardModuleId = true →
  transform isMatch options text id = None
  ∧ transformIndexHtml isMatch options text id = None
  ∧ outcome text (transform isMatch options text id) = text
  ∧ outcome text (transformIndexHtml isMatch options text id) = text.
Proof.
  intros Hmarked.
  assert (transform isMatch options text id = None) as Hscript.
  { unfold transform. rewrite Hmarked. by repeat case_match. }
  assert (transformIndexHtml isMatch options text id = None) as Hpage.
  { unfold transformIndexHtml. rewrite Hmarked. by repeat case_match. }
  by rewrite Hscript, Hpage.
Qed.

Lemma injection_idempotent_witness :
  transform everywhere sampleOptions
    ("import 'virtual:console-forward';" +:+ newline +:+ "console.log(1)") "/src/app/main.ts"
  = None
  ∧ transformIndexHtml everywhere sampleOptions
      ("import 'virtual:console-forward';" +:+ newline +:+ "console.log(1)") "/src/app/main.ts"
    = None
  ∧ outcome ("import 'virtual:console-forward';" +:+ newline +:+ "console.log(1)")
      (transform everywhere sampleOptions
         ("import 'virtual:console-forward';" +:+ newline +:+ "console.log(1)")
         "/src/app/main.ts")
    = "import 'virtual:console-forward';" +:+ newline +:+ "console.log(1)"
  ∧ outcome ("import 'virtual:console-forward';" +:+ newline +:+ "console.log(1)")
      (transformIndexHtml everywhere sampleOptions
         ("import 'virtual:console-forward';" +:+ newline +:+ "console.log(1)")
         "/src/app/main.ts")
    = "import 'virtual:console-forward';" +:+ newline +:+ "console.log(1)".
Proof.
  exact (injection_idempotent everywhere sampleOptions
           ("import 'virtual:console-forward';" +:+ newline +:+ "console.log(1)")
           "/src/app/main.ts" eq_refl).
Defined.


(** *** The injected text carries the marker *)

Lemma append_assoc (a b c : string) : (a +:+ b) +:+ c = a +:+ b +:+ c.
Proof.
  induction a as [|x a IH]; [done|].
  change (String x (a +:+ b) +:+ c = String x (a +:+ b +:+ c)).
  change (String x ((a +:+ b) +:+ c) = String x (a +:+ b +:+ c)).
  by rewrite IH.
Qed.

Lemma prefix_append (p s : string) : String.prefix p (p +:+ s) = true.
Proof.
  induction p as [|x p IH]; [by destruct s|].
  change (String x p +:+ s) with (String x (p +:+ s)). simpl.
  by destruct (ascii_dec x x).
Qed.

Lemma search_unfold (s needle : string) :
  search s needle
  = if String.prefix needle s then Some (EmptyString, slice s (String.length needle))
    else match s with
         | EmptyString => None
         | String c s' =>
             match search s' needle with
             | Some (before, after) => Some (String c before, after)
             | None => None
             end
         end.
Proof. by destruct s. Qed.

Lemma includes_after (a s needle : string) :
  includes s needle = true → includes (a +:+ s) needle = true.
Proof.
  unfold includes. intros Hs.
  induction a as [|x a IH]; [done|].
  change (String x a +:+ s) with (String x (a +:+ s)).
  rewrite search_unfold. destruct (String.prefix needle _); [done|].
  by destruct (search (a +:+ s) needle) as [[]|].
Qed.

Lemma includes_append (a needle b : string) :
  includes (a +:+ needle +:+ b) needle = true.
Proof.
  apply includes_after. unfold includes.
  by rewrite search_unfold, prefix_append.
Qed.

Lemma substitution_plain (p rest matched before after : string) :
  plain p = true →
  substitution (p +:+ rest) matched before after
  = p +:+ substitution rest matched before after.
Proof.
  induction p as [|x p IH]; [done|]. simpl.
  intros [Hx Hp]%andb_prop.
  change (String x p +:+ rest) with (String x (p +:+ rest)).
  change (String x p +:+ substitution rest matched before after)
    with (String x (p +:+ substitution rest matched before after)).
  rewrite <- (IH Hp).
  destruct (Ascii.eqb_spec x "$") as [->|Hne]; [done|].
  destruct x as [[] [] [] [] [] [] [] []]; try done.
Qed.

(** Whatever the text put in after the tag of a page, the text that
    replaces the tag carries the marker. *)
Lemma replace_marked (html tag moduleContext : string) :
  plain tag = true →
  includes html tag = true →
  includes (replace html tag (tag +:+ newline +:+ scriptTag moduleContext)) forwardModuleId
  = true.
Proof.
  intros Htag Hin. unfold replace, includes in *.
  destruct (search html tag) as [[before after]|]; [|done].
  fold (includes (before +:+ substitution (tag +:+ newline +:+ scriptTag moduleContext)
                               tag before after +:+ after) forwardModuleId).
  apply includes_after.
  rewrite (substitution_plain tag) by done.
  rewrite append_assoc. apply includes_after.
  change (newline +:+ scriptTag moduleContext)
    with ((newline +:+ "<script type=" +:+ doubleQuote +:+ "module" +:+ doubleQuote
           +:+ ">" +:+ newline +:+ "import { setModuleContext } from '")
          +:+ forwardModuleId
          +:+ "';" +:+ newline +:+ "setModuleContext('" +:+ moduleContext +:+ "');"
          +:+ newline +:+ "import '" +:+ forwardModuleId +:+ "';" +:+ newline +:+ "</script>").
  rewrite substitution_plain by done.
  rewrite (substitution_plain forwardModuleId) by done.
  rewrite (append_assoc _ (forwardModuleId +:+ _) after), (append_assoc forwardModuleId).
  apply includes_append.
Qed.

(** What a hook has injected into, it leaves alone the next time. *)
Lemma never_injected_twice (isMatch : string → list string → bool) (options : Options)
    (text id : string) :
  transform isMatch options (outcome text (transform isMatch options text id)) id = None
  ∧ transformIndexHtml isMatch options
      (outcome text (transformIndexHtml isMatch options text id)) id = None.
Proof.
  split.
  - unfold transform.
    destruct (negb (enabled options) || _); [done|].
    destruct (endsWith id ".html"); [done|].
    destruct (_ && isMatch id (excludePatterns options)); [done|].
    destruct (isMatch id (injectPatterns options)); [|done].
    destruct (includes text forwardModuleId) eqn:Hmarked; simpl; [by rewrite Hmarked|].
    done.
  - unfold transformIndexHtml.
    destruct (negb (enabled options) || _); [done|].
    destruct (_ && isMatch id (excludePatterns options)); [done|].
    destruct (isMatch id (injectPatterns options)); [|done].
    destruct (includes text forwardModuleId) eqn:Hmarked; simpl; [by rewrite Hmarked|].
    destruct (includes text "<head>") eqn:Hhead; simpl; [by rewrite replace_marked|].
    destruct (includes text "<body>") eqn:Hbody; simpl; [by rewrite replace_marked|].
    destruct (includes text "<html>") eqn:Hhtml; simpl; [by rewrite replace_marked|].
    done.
Qed.

End PluginProps.

(** ** The middleware *)

Module ServerProps.
Import Server Records.

#[local] Arguments get : simpl never.

Example forward_one :
  onEnd (payload [record "error" "boom"
                    [("module", JStr "checkout"); ("url", JStr "http://localhost:5173/");
                     ("stacks", JArr [JStr ("at f (a.js:1:1)" +:+ Plugin.newline +:+ "at g (a.js:2:2)")]);
                     ("extra", JArr [])]]) initialState
  = (successResponse,
     let logger := {| loggerId := 0; prefix := "[checkout]" |} in
     {| loggerCache := {[ KeyString "checkout" := logger ]}; created := 1; identities := 0;
        terminal :=
          [{| sink := logger; channel := ErrorChannel;
              text := "[error] boom (http://localhost:5173/)" +:+ Plugin.newline
                      +:+ "    at f (a.js:1:1)" +:+ Plugin.newline +:+ "    at g (a.js:2:2)";
              logOptions :=
                {| timestamp := true;
                   error := Some (Some ("at f (a.js:1:1)" +:+ Plugin.newline
                                        +:+ "at g (a.js:2:2)")) |} |}];
        diagnostics := [] |}).
Proof. reflexivity. Qed.

Example unprintable_message_rejected :
  status (onEnd unprintablePayload initialState).1 = 400
  ∧ map text (terminal (onEnd unprintablePayload initialState).2) = ["[info] hello"]
  ∧ diagnostics (onEnd unprintablePayload initialState).2
    = [TypeError "Cannot convert object to primitive value"].
Proof. by vm_compute. Qed.

Example fractional_length_rejected :
  status (onEnd fractionalPayload initialState).1 = 400
  ∧ terminal (onEnd fractionalPayload initialState).2 = [].
Proof. by vm_compute. Qed.

Example exponent_number_printed :
  status (onEnd exponentPayload initialState).1 = 200
  ∧ map text (terminal (onEnd exponentPayload initialState).2) = ["[log] 1e+21"].
Proof. by vm_compute. Qed.

(** The callback of [forEach] is: read [module], get the logger, render,
    call the logger. *)
Lemma forward_factor (log : Json) (st : State) :
  forward log st
  = match get (Some log) "module" with
    | Throw e => (Throw e, st)
    | Normal _ =>
        match getOrCreateLogger (moduleName log) st with
        | (Normal logger, st1) =>
            match render log logger with
            | Normal line => emit line st1
            | Throw e => (Throw e, st1)
            end
        | (Throw e, st1) => (Throw e, st1)
        end
    end.
Proof.
  unfold forward, render, moduleName, andThen, lift, pure.
  destruct (get (Some log) "module") as [moduleValue|e] eqn:Hmodule; [|done].
  assert (∀ k, ∃ v, get (Some log) k = Normal v) as Hget.
  { intros k. destruct log; try discriminate; simpl; eauto. }
  replace (match moduleValue with
           | Some m => if truthy moduleValue then m else JStr "unknown"
           | None => JStr "unknown"
           end)
    with (match moduleValue with
          | Some m => if truthy (Some m) then m else JStr "unknown"
          | None => JStr "unknown"
          end) by (by destruct moduleValue).
  destruct (getOrCreateLogger _ st) as [[logger|e] st1]; [|done].
  destruct (Hget "url") as [urlValue ->].
  destruct (Hget "level") as [levelValue ->].
  destruct (Hget "message") as [messageValue ->].
  destruct (Hget "stacks") as [stacksValue ->].
  destruct (Hget "extra") as [extraValue ->].
  exec.
  destruct (if truthy urlValue then _ else _) as [location|]; exec; [|done].
  destruct (template levelValue) as [level|]; exec; [|done].
  destruct (template messageValue) as [body|]; exec; [|done].
  destruct (nonEmpty stacksValue) as [[|]|]; exec; try done.
  - destruct (stacksMap stacksValue) as [frames|]; exec; try done.
    destruct (nonEmpty extraValue) as [hasExtra|]; exec; try done.
    destruct (isLevel levelValue "error"); exec.
    { by destruct (stacksJoin stacksValue Plugin.newline). }
    by repeat (destruct (isLevel levelValue _)).
  - destruct (nonEmpty extraValue) as [hasExtra|]; exec; try done.
    destruct (isLevel levelValue "error"); exec; [done|].
    by repeat (destruct (isLevel levelValue _)).
Qed.

(** [getOrCreateLogger] prints nothing and keeps what the map holds.
    When it returns, the logger is filed under the key of the name: the
    one found there, or else a new one, prefixed with the name in
    brackets.  It throws only for a name that is not in the map and
    cannot be printed, and then leaves the map as it is. *)
Lemma getOrCreateLogger_spec (moduleName : Json) (st : State) :
  terminal (getOrCreateLogger moduleName st).2 = terminal st
  ∧ diagnostics (getOrCreateLogger moduleName st).2 = diagnostics st
  ∧ (∀ k x, loggerCache st !! k = Some x →
            loggerCache (getOrCreateLogger moduleName st).2 !! k = Some x)
  ∧ match (getOrCreateLogger moduleName st).1 with
    | Normal logger =>
        loggerCache (getOrCreateLogger moduleName st).2 !! mapKey moduleName st = Some logger
        ∧ match loggerCache st !! mapKey moduleName st with
          | Some old =>
              logger = old
              ∧ created (getOrCreateLogger moduleName st).2 = created st
              ∧ loggerCache (getOrCreateLogger moduleName st).2 = loggerCache st
          | None =>
              ∃ name,
                toString moduleName = Normal name
                ∧ logger = {| loggerId := created st; prefix := "[" +:+ name +:+ "]" |}
                ∧ created (getOrCreateLogger moduleName st).2 = S (created st)
          end
    | Throw e =>
        toString moduleName = Throw e
        ∧ loggerCache st !! mapKey moduleName st = None
        ∧ created (getOrCreateLogger moduleName st).2 = created st
        ∧ loggerCache (getOrCreateLogger moduleName st).2 = loggerCache st
    end.
Proof.
  unfold getOrCreateLogger.
  destruct (loggerCache st !! mapKey moduleName st) as [old|] eqn:Hold; simpl.
  - by repeat split.
  - destruct (toString moduleName) as [name|e] eqn:Hname; simpl.
    + rewrite lookup_insert_eq. repeat split; eauto.
      intros k x Hk. rewrite lookup_insert_ne; [done|]. by intros <-; simplify_eq.
    + by repeat split.
Qed.

Lemma render_sink (log : Json) (logger : Logger) (line : Line) :
  render log logger = Normal line → sink line = logger.
Proof.
  unfold render. intros H. exec.
  repeat (branch; simplify_eq; exec; try done).
Qed.

(** A record that goes through: one logger looked up or made, one line. *)
Lemma forward_normal (log : Json) (st st' : State) (u : unit) :
  forward log st = (Normal u, st') →
  ∃ logger st1 line,
    getOrCreateLogger (moduleName log) st = (Normal logger, st1)
    ∧ render log logger = Normal line
    ∧ loggerCache st' = loggerCache st1
    ∧ created st' = created st1
    ∧ terminal st' = terminal st ++ [line]
    ∧ diagnostics st' = diagnostics st.
Proof.
  rewrite forward_factor.
  destruct (get (Some log) "module"); [|discriminate].
  destruct (getOrCreateLogger_spec (moduleName log) st) as (Hterm & Hdiag & _).
  destruct (getOrCreateLogger (moduleName log) st) as [[logger|e] st1]; [|discriminate].
  destruct (render log logger) as [line|] eqn:Hline; [|discriminate].
  intros [= _ <-]. exists logger, st1, line. simpl in *. by rewrite Hterm, Hdiag.
Qed.

(** A record that throws: nothing was printed for it. *)
Lemma forward_throw (log : Json) (st st' : State) (e : JsError) :
  forward log st = (Throw e, st') →
  terminal st' = terminal st ∧ diagnostics st' = diagnostics st.
Proof.
  rewrite forward_factor.
  destruct (get (Some log) "module"); [|by intros [= _ <-]].
  destruct (getOrCreateLogger_spec (moduleName log) st) as (Hterm & Hdiag & _).
  destruct (getOrCreateLogger (moduleName log) st) as [[logger|e'] st1]; simpl in *.
  - destruct (render log logger) as [line|] eqn:Hline; [discriminate|].
    by intros [= _ <-].
  - by intros [= _ <-].
Qed.



(** A batch that goes through has printed one line per record. *)
Lemma forEach_normal (logs : list Json) :
  ∀ st st' u,
    forEach logs st = (Normal u, st') →
    length (terminal st') = length (terminal st) + length logs
    ∧ diagnostics st' = diagnostics st.
Proof.
  induction logs as [|log rest IH]; intros st st' u; simpl.
  - intros [= _ <-]. split; [lia|done].
  - unfold andThen. destruct (forward log st) as [[u1|e] st1] eqn:Hlog; [|discriminate].
    intros Hrest. apply IH in Hrest as [Hlen Hdiag].
    apply forward_normal in Hlog as (_ & _ & line & _ & _ & _ & _ & Hterm & Hdiag1).
    rewrite Hlen, Hterm, length_app, Hdiag, Hdiag1. simpl. split; [lia|done].
Qed.

(** A batch that throws stops at its first record that throws: those
    before it went through, it printed nothing itself, and those after it
    were not looked at. *)
Lemma forEach_throw (logs : list Json) :
  ∀ st st' e,
    forEach logs st = (Throw e, st') →
    ∃ before bad after st1,
      logs = before ++ bad :: after
      ∧ forEach before st = (Normal tt, st1)
      ∧ forward bad st1 = (Throw e, st').
Proof.
  induction logs as [|log rest IH]; intros st st' e; simpl; [discriminate|].
  unfold andThen. destruct (forward log st) as [[[]|e1] st1] eqn:Hlog.
  - intros Hrest. apply IH in Hrest as (before & bad & after & st2 & -> & Hbefore & Hbad).
    exists (log :: before), bad, after, st2. simpl. unfold andThen.
    by rewrite Hlog.
  - intros [= <- <-]. by exists [], log, rest, st.
Qed.


Lemma processBody_batch (parsed : Completion Json) (logs : list Json) (st : State) :
  batchOf parsed = Some logs → processBody parsed st = forEach logs st.
Proof.
  unfold batchOf, processBody, andThen, lift.
  destruct parsed as [payload|]; [|discriminate].
  destruct (get (Some payload) "logs") as [[[]|]|]; try discriminate.
  by intros [= ->].
Qed.

Lemma processBody_no_batch (parsed : Completion Json) (st : State) :
  batchOf parsed = None → ∃ e, processBody parsed st = (Throw e, st).
Proof.
  unfold batchOf, processBody, andThen, lift.
  destruct parsed as [payload|]; [|by eauto].
  destruct (get (Some payload) "logs") as [[[]|]|]; try discriminate; by eauto.
Qed.

(** C3 as stated fails: the batch whose second item is [null] is answered
    with status 400 although its first record has been printed by the
    logger of its module. *)
Lemma partial_batch_printed :
  status (onEnd brokenPayload initialState).1 = 400
  ∧ responseBody (onEnd brokenPayload initialState).1 = JObj [("error", JStr "Invalid JSON")]
  ∧ terminal (onEnd brokenPayload initialState).2
    = [{| sink := {| loggerId := 0; prefix := "[app]" |}; channel := InfoChannel;
          text := "[info] hello";
          logOptions := {| timestamp := true; error := None |} |}].
Proof. by repeat split. Qed.

(** C3, as the code has it.  A request answered with status 400 is
    answered with the body [{"error":"Invalid JSON"}] and leaves one
    diagnostic.  When the body does not parse, or parses to something
    without a [logs] array, nothing was printed and no logger was made or
    looked up.  When it has a [logs] array, the records before the first
    one that throws have been forwarded, one line each, and nothing was
    printed for that record or for the ones after it. *)
Theorem rejected_request (parsed : Completion Json) (st : State) :
  status (onEnd parsed st).1 = 400 →
  responseBody (onEnd parsed st).1 = JObj [("error", JStr "Invalid JSON")]
  ∧ sentText (onEnd parsed st).1
    = "{" +:+ doubleQuote +:+ "error" +:+ doubleQuote +:+ ":"
      +:+ doubleQuote +:+ "Invalid JSON" +:+ doubleQuote +:+ "}"
  ∧ length (diagnostics (onEnd parsed st).2) = S (length (diagnostics st))
  ∧ match batchOf parsed with
    | None =>
        terminal (onEnd parsed st).2 = terminal st
        ∧ loggerCache (onEnd parsed st).2 = loggerCache st
        ∧ created (onEnd parsed st).2 = created st
    | Some logs =>
        ∃ before bad after st1 e,
          logs = before ++ bad :: after
          ∧ forEach before st = (Normal tt, st1)
          ∧ (forward bad st1).1 = Throw e
          ∧ terminal (onEnd parsed st).2 = terminal st1
          ∧ length (terminal (onEnd parsed st).2) = length (terminal st) + length before
    end.
Proof.
  unfold onEnd.
  destruct (processBody parsed st) as [[u|e] st'] eqn:Hrun; simpl; [discriminate|].
  intros _. repeat split.
  - rewrite length_app. simpl. rewrite Nat.add_1_r. f_equal.
    destruct (batchOf parsed) as [logs|] eqn:Hbatch.
    + rewrite (processBody_batch _ _ _ Hbatch) in Hrun.
      apply forEach_throw in Hrun as (before & bad & after & st1 & _ & Hbefore & Hbad).
      apply forEach_normal in Hbefore as [_ <-].
      by apply forward_throw in Hbad as [_ ->].
    + destruct (processBody_no_batch _ st Hbatch) as [e' He].
      rewrite He in Hrun. by simplify_eq.
  - destruct (batchOf parsed) as [logs|] eqn:Hbatch.
    + rewrite (processBody_batch _ _ _ Hbatch) in Hrun.
      apply forEach_throw in Hrun as (before & bad & after & st1 & -> & Hbefore & Hbad).
      exists before, bad, after, st1, e. rewrite Hbad. repeat split; try done.
      * by apply forward_throw in Hbad as [-> _].
      * apply forward_throw in Hbad as [-> _].
        by apply forEach_normal in Hbefore as [-> _].
    + destruct (processBody_no_batch _ st Hbatch) as [e' He].
      rewrite He in Hrun. by simplify_eq.
Qed.

Lemma rejected_request_witness :
  responseBody (onEnd notJson initialState).1 = JObj [("error", JStr "Invalid JSON")]
  ∧ sentText (onEnd notJson initialState).1
    = "{" +:+ doubleQuote +:+ "error" +:+ doubleQuote +:+ ":"
      +:+ doubleQuote +:+ "Invalid JSON" +:+ doubleQuote +:+ "}"
  ∧ length (diagnostics (onEnd notJson initialState).2) = 1
  ∧ terminal (onEnd notJson initialState).2 = []
  ∧ loggerCache (onEnd notJson initialState).2 = ∅
  ∧ created (onEnd notJson initialState).2 = 0.
Proof. exact (rejected_request notJson initialState eq_refl). Defined.


Lemma elements_strings (strs : list string) : elements (JStr <$> strs) = Normal strs.
Proof.
  induction strs as [|s rest IH]; [done|].
  rewrite fmap_cons. cbn [elements toString]. rewrite IH. by exec.
Qed.










End ServerProps.

(** ** Splitting and joining *)

Module TextProps.

Lemma split_cons (s : string) (sep : ascii) : ∃ w ws, split s sep = w :: ws.
Proof.
  induction s as [|c s IH]; simpl; [by eauto|].
  destruct (Ascii.eqb c sep); [by eauto|].
  destruct IH as (w & ws & ->). by eauto.
Qed.

Lemma split_append (a b : string) (sep : ascii) :
  split (a +:+ String sep b) sep = split a sep ++ split b sep.
Proof.
  induction a as [|c a IH].
  - change (EmptyString +:+ String sep b) with (String sep b). simpl.
    by rewrite Ascii.eqb_refl.
  - change (String c a +:+ String sep b) with (String c (a +:+ String sep b)). simpl.
    rewrite IH. destruct (Ascii.eqb c sep); [done|].
    by destruct (split_cons a sep) as (w & ws & ->).
Qed.

Lemma split_without (s : string) (sep : ascii) :
  Extractor.without sep s = true → split s sep = [s].
Proof.
  induction s as [|c s IH]; simpl; [done|].
  intros [Hc Hs]%andb_prop. apply negb_true_iff in Hc. rewrite Hc.
  by rewrite IH.
Qed.

Lemma split_path (segment : string) (segments : list string) :
  Forall (λ s, Extractor.without "/" s = true) (segment :: segments) →
  split (Extractor.path (segment :: segments)) "/" = segment :: segments.
Proof.
  revert segment. induction segments as [|next rest IH]; intros segment Hall.
  - apply split_without. by inversion Hall.
  - inversion Hall as [|? ? Hsegment Hrest]; subst.
    change (Extractor.path (segment :: next :: rest))
      with (segment +:+ String "/" (Extractor.path (next :: rest))).
    rewrite split_append, split_without, IH; done.
Qed.

End TextProps.

(** ** The default module extractor *)

Module ExtractorProps.
Import Extractor TextProps.

Example extractor_samples :
  defaultModuleExtractor "/project/src/components/Button.tsx" = Some "components"
  ∧ defaultModuleExtractor "/project/src/main.ts" = Some "src"
  ∧ defaultModuleExtractor "/project/lib/util.ts" = Some "lib"
  ∧ defaultModuleExtractor "./main.test.ts" = Some "main"
  ∧ defaultModuleExtractor "" = Some "unknown".
Proof. by repeat split. Qed.

Lemma findIndex_range {A} (p : A → bool) (xs : list A) :
  (-1 ≤ findIndex p xs < Z.of_nat (length xs))%Z.
Proof.
  induction xs as [|x xs IH]; simpl; [lia|].
  destruct (p x); [lia|]. destruct (Z.ltb_spec (findIndex p xs) 0); lia.
Qed.

Lemma findIndex_skip {A} (p : A → bool) (pre rest : list A) :
  Forall (λ x, p x = false) pre →
  findIndex p (pre ++ rest)
  = if (findIndex p rest <? 0)%Z then (-1)%Z
    else (Z.of_nat (length pre) + findIndex p rest)%Z.
Proof.
  induction 1 as [|x pre Hx _ IH]; simpl.
  - destruct (Z.ltb_spec (findIndex p rest) 0); [|lia].
    pose proof (findIndex_range p rest). lia.
  - rewrite Hx, IH. pose proof (findIndex_range p rest).
    destruct (Z.ltb_spec (findIndex p rest) 0); [done|].
    destruct (Z.ltb_spec (Z.of_nat (length pre) + findIndex p rest) 0); lia.
Qed.

Lemma findIndex_first {A} (p : A → bool) (pre rest : list A) (x : A) :
  Forall (λ y, p y = false) pre → p x = true →
  findIndex p (pre ++ x :: rest) = Z.of_nat (length pre).
Proof.
  intros Hpre Hx. rewrite findIndex_skip by done. simpl. rewrite Hx. simpl. lia.
Qed.

Lemma at_nat {A} (xs : list A) (n : nat) : at_ xs (Z.of_nat n) = xs !! n.
Proof.
  unfold at_. destruct (Z.ltb_spec (Z.of_nat n) 0); [lia|]. by rewrite Nat2Z.id.
Qed.

Lemma split_segments (segments : list string) :
  segments ≠ [] →
  Forall (λ s, without "/" s = true) segments →
  split (path segments) "/" = segments.
Proof. destruct segments; [done|]. intros _. apply split_path. Qed.

Lemma not_src (pre : list string) :
  "src" ∉ pre → Forall (λ part, String.eqb part "src" = false) pre.
Proof.
  intros Hpre. apply Forall_forall. intros part Hin.
  destruct (String.eqb_spec part "src") as [->|]; done.
Qed.

(** A file below a directory of [src]: the module is that directory, the
    one after the first [src] of the path. *)
Theorem extractor_after_src (pre rest : list string) (dir : string) :
  Forall (λ s, without "/" s = true) (pre ++ "src" :: dir :: rest) →
  "src" ∉ pre →
  rest ≠ [] →
  defaultModuleExtractor (path (pre ++ "src" :: dir :: rest)) = Some dir.
Proof.
  intros Hfree Hpre Hrest. unfold defaultModuleExtractor.
  rewrite split_segments by (done || by destruct pre).
  rewrite (findIndex_first _ pre) by (done || by apply not_src).
  rewrite length_app. simpl length.
  assert (0 < length rest) by (destruct rest; [done|simpl; lia]).
  rewrite (proj2 (Z.leb_le _ _)), (proj2 (Z.ltb_lt _ _)) by lia. simpl.
  replace (Z.of_nat (length pre) + 1)%Z with (Z.of_nat (length pre + 1)) by lia.
  rewrite at_nat, lookup_app_r by lia.
  by replace (length pre + 1 - length pre) with 1 by lia.
Qed.

Lemma extractor_after_src_witness :
  defaultModuleExtractor (path ([""; "project"] ++ "src" :: "components" :: ["Button.tsx"]))
  = Some "components".
Proof.
  refine (extractor_after_src [""; "project"] ["Button.tsx"] "components" _ _ _).
  - by repeat constructor.
  - by intros [?|[?|?%elem_of_nil]%elem_of_cons]%elem_of_cons.
  - done.
Defined.


(** With no [src] above the parent directory, the [src] rule does not
    apply to a path [.../parent/file]. *)
Lemma no_src_rule (pre : list string) (parent file : string) :
  "src" ∉ pre →
  let parts := pre ++ [parent; file] in
  let srcIndex := findIndex (λ part, String.eqb part "src") parts in
  (0 <=? srcIndex)%Z && (srcIndex <? Z.of_nat (length parts) - 2)%Z = false.
Proof.
  intros Hpre parts srcIndex. subst parts srcIndex.
  rewrite findIndex_skip by by apply not_src.
  rewrite length_app. simpl length.
  pose proof (findIndex_range (λ part, String.eqb part "src") [parent; file]) as Hrange.
  destruct (Z.ltb_spec (findIndex (λ part, String.eqb part "src") [parent; file]) 0).
  - done.
  - apply andb_false_iff. right. apply Z.ltb_ge. lia.
Qed.

Lemma parts_parent (pre : list string) (parent file : string) :
  at_ (pre ++ [parent; file]) (Z.of_nat (length (pre ++ [parent; file])) - 2) = Some parent.
Proof.
  rewrite length_app. simpl length.
  replace (Z.of_nat (length pre + 2) - 2)%Z with (Z.of_nat (length pre)) by lia.
  rewrite at_nat, lookup_app_r by lia. by rewrite Nat.sub_diag.
Qed.

Lemma parts_file (pre : list string) (parent file : string) :
  at_ (pre ++ [parent; file]) (Z.of_nat (length (pre ++ [parent; file])) - 1) = Some file.
Proof.
  rewrite length_app. simpl length.
  replace (Z.of_nat (length pre + 2) - 1)%Z with (Z.of_nat (length pre + 1)) by lia.
  rewrite at_nat, lookup_app_r by lia.
  by replace (length pre + 1 - length pre) with 1 by lia.
Qed.

(** A file with no directory of [src] above its parent: the module is the
    parent directory, unless that is empty, [.] or [..].  A file directly
    in [src] so gets the module [src]. *)
Theorem extractor_parent (pre : list string) (parent file : string) :
  Forall (λ s, without "/" s = true) (pre ++ [parent; file]) →
  "src" ∉ pre →
  parent ≠ EmptyString → parent ≠ "." → parent ≠ ".." →
  defaultModuleExtractor (path (pre ++ [parent; file])) = Some parent.
Proof.
  intros Hfree Hpre Hempty Hdot Hdots. unfold defaultModuleExtractor.
  rewrite split_segments by (done || by destruct pre).
  rewrite (no_src_rule pre parent file Hpre), parts_parent.
  destruct (String.eqb_spec parent EmptyString); [done|].
  destruct (String.eqb_spec parent "."); [done|].
  by destruct (String.eqb_spec parent "..").
Qed.

Lemma extractor_parent_witness :
  defaultModuleExtractor (path ([""; "project"] ++ ["src"; "main.ts"])) = Some "src".
Proof.
  refine (extractor_parent [""; "project"] "src" "main.ts" _ _ _ _ _); try done.
  - by repeat constructor.
  - by intros [?|[?|?%elem_of_nil]%elem_of_cons]%elem_of_cons.
Defined.

Lemma stem_at (filename : string) :
  (if negb (String.eqb filename EmptyString) then at_ (split filename ".") 0
   else Some "unknown") = Some (stem filename).
Proof.
  unfold stem. destruct (String.eqb filename EmptyString); simpl; [done|].
  by destruct (split_cons filename ".") as (w & ws & ->).
Qed.

(** When no directory names the module, the file does: a path without
    any slash, or one whose parent directory is empty, [.] or [..] with no
    [src] above it, gives what precedes the first dot of the file name,
    and ["unknown"] when the file name is empty. *)
Theorem extractor_file_name :
  (∀ id : string, without "/" id = true → defaultModuleExtractor id = Some (stem id))
  ∧ (∀ (pre : list string) (parent file : string),
       Forall (λ s, without "/" s = true) (pre ++ [parent; file]) →
       "src" ∉ pre →
       parent = EmptyString ∨ parent = "." ∨ parent = ".." →
       defaultModuleExtractor (path (pre ++ [parent; file])) = Some (stem file)).
Proof.
  split.
  - intros id Hid. unfold defaultModuleExtractor. rewrite split_without by done.
    simpl. destruct (String.eqb id "src"); simpl; apply stem_at.
  - intros pre parent file Hfree Hpre Hparent. unfold defaultModuleExtractor.
    rewrite split_segments by (done || by destruct pre).
    rewrite (no_src_rule pre parent file Hpre), parts_parent, parts_file.
    destruct Hparent as [->|[->| ->]]; simpl; apply stem_at.
Qed.

Lemma extractor_file_name_witness :
  defaultModuleExtractor "main.test.ts" = Some "main"
  ∧ defaultModuleExtractor (path ([] ++ ["."; "main.test.ts"])) = Some "main".
Proof.
  split.
  - exact (proj1 extractor_file_name "main.test.ts" eq_refl).
  - refine (proj2 extractor_file_name [] "." "main.test.ts" _ _ _).
    + by repeat constructor.
    + by intros ?%elem_of_nil.
    + by right; left.
Defined.


End ExtractorProps.

(** ** Injection into pages *)

Module PageProps.
Import Plugin PluginSamples Pages.

Lemma append_nil_r (s : string) : s +:+ EmptyString = s.
Proof.
  induction s as [|c s IH]; [done|].
  change (String c s +:+ EmptyString) with (String c (s +:+ EmptyString)). by rewrite IH.
Qed.

Lemma append_assoc' (a b c : string) : (a +:+ b) +:+ c = a +:+ b +:+ c.
Proof.
  induction a as [|x a IH]; [done|].
  change (String x ((a +:+ b) +:+ c) = String x (a +:+ b +:+ c)). by rewrite IH.
Qed.

Lemma plain_append (a b : string) : plain a = true → plain b = true → plain (a +:+ b) = true.
Proof.
  intros Ha Hb. induction a as [|x a IH]; [done|].
  change (String x a +:+ b) with (String x (a +:+ b)). simpl in *.
  apply andb_prop in Ha as [-> Ha]. by rewrite IH.
Qed.

Lemma substitution_whole (template matched before after : string) :
  plain template = true → substitution template matched before after = template.
Proof.
  induction template as [|x t IH]; [done|]. simpl.
  intros [Hx Ht]%andb_prop.
  destruct (Ascii.eqb_spec x "$") as [->|Hne]; [done|].
  destruct x as [[] [] [] [] [] [] [] []]; try done; by rewrite (IH Ht).
Qed.

Lemma prefix_slice (p s : string) :
  String.prefix p s = true → s = p +:+ slice s (String.length p).
Proof.
  revert s. induction p as [|x p IH]; intros s; [by destruct s|].
  destruct s as [|y s]; simpl; [done|].
  destruct (ascii_dec x y) as [->|]; [|done].
  intros Hp. change (String y p +:+ slice s (String.length p))
    with (String y (p +:+ slice s (String.length p))).
  by rewrite <- (IH s Hp).
Qed.

Lemma prefix_extend (p s t : string) :
  String.prefix p s = true → String.prefix p (s +:+ t) = true.
Proof.
  revert s. induction p as [|x p IH]; intros s; [by destruct s, t|].
  destruct s as [|y s]; simpl; [done|].
  change (String y s +:+ t) with (String y (s +:+ t)). simpl.
  destruct (ascii_dec x y); [apply IH|done].
Qed.

Lemma search_step (s needle : string) :
  search s needle
  = if String.prefix needle s then Some (EmptyString, slice s (String.length needle))
    else match s with
         | EmptyString => None
         | String c s' =>
             match search s' needle with
             | Some (before, after) => Some (String c before, after)
             | None => None
             end
         end.
Proof. by destruct s. Qed.

(** What [search] finds is an occurrence, and nothing before it holds
    one. *)
Lemma search_sound (needle : string) :
  needle ≠ EmptyString →
  ∀ s before after,
    search s needle = Some (before, after) →
    s = before +:+ needle +:+ after ∧ includes before needle = false.
Proof.
  intros Hneedle. induction s as [|c s IH]; intros before after; rewrite search_step.
  - destruct (String.prefix needle EmptyString) eqn:Hp; [|done].
    by destruct needle.
  - destruct (String.prefix needle (String c s)) eqn:Hp.
    + intros [= <- <-]. split; [by apply prefix_slice|].
      unfold includes. rewrite search_step. by destruct needle.
    + destruct (search s needle) as [[b a]|] eqn:Hs; [|done].
      intros [= <- <-]. destruct (IH b a eq_refl) as [Heq Hbefore].
      split; [by rewrite Heq at 1|].
      unfold includes in *. rewrite search_step.
      destruct (String.prefix needle (String c b)) eqn:Hpb.
      * apply (prefix_extend _ _ (needle +:+ a)) in Hpb.
        change (String c b +:+ needle +:+ a) with (String c (b +:+ needle +:+ a)) in Hpb.
        rewrite <- Heq in Hpb. congruence.
      * by destruct (search b needle) as [[]|].
Qed.

Lemma replace_plain (html tag replacement : string) :
  tag ≠ EmptyString →
  plain replacement = true →
  includes html tag = true →
  ∃ before after,
    html = before +:+ tag +:+ after
    ∧ includes before tag = false
    ∧ replace html tag replacement = before +:+ replacement +:+ after.
Proof.
  intros Htag Hplain Hin. unfold replace, includes in *.
  destruct (search html tag) as [[before after]|] eqn:Hs; [|done].
  destruct (search_sound tag Htag _ _ _ Hs) as [Heq Hfirst].
  exists before, after. by rewrite substitution_whole.
Qed.

(** When a page is injected and the module name has no [$] in it, the
    script tag goes on its own line right after the first occurrence of
    the first of [<head>], [<body>], [<html>] that the page has, and
    otherwise on top; everything else of the page stays as it is. *)
Theorem page_injection (isMatch : string → list string → bool) (options : Options)
    (html filename result : string) :
  transformIndexHtml isMatch options html filename = Some result →
  plain (moduleExtractor options filename) = true →
  match anchor html with
  | Some tag =>
      ∃ before after,
        html = before +:+ tag +:+ after
        ∧ includes before tag = false
        ∧ result = before +:+ tag +:+ newline
                   +:+ scriptTag (moduleExtractor options filename) +:+ after
  | None => result = scriptTag (moduleExtractor options filename) +:+ newline +:+ html
  end.
Proof.
  unfold transformIndexHtml, anchor. intros Hresult Hname.
  destruct (negb (enabled options) || _); [done|].
  destruct (_ && isMatch filename (excludePatterns options)); [done|].
  destruct (isMatch filename (injectPatterns options)); [|done].
  destruct (includes html forwardModuleId); [done|].
  assert (plain (scriptTag (moduleExtractor options filename)) = true) as Htag.
  { unfold scriptTag. repeat (apply plain_append; [done|]). done. }
  assert (∀ tag, tag ≠ EmptyString → plain tag = true → includes html tag = true →
            ∃ before after,
              html = before +:+ tag +:+ after ∧ includes before tag = false
              ∧ replace html tag (tag +:+ newline
                                  +:+ scriptTag (moduleExtractor options filename))
                = before +:+ tag +:+ newline
                  +:+ scriptTag (moduleExtractor options filename) +:+ after) as Hput.
  { intros tag Hne Hplain Hin.
    destruct (replace_plain html tag
                (tag +:+ newline +:+ scriptTag (moduleExtractor options filename)))
      as (before & after & Heq & Hfirst & Hrep); try done.
    { apply plain_append; [done|]. by apply plain_append. }
    exists before, after. by rewrite Hrep, !append_assoc'. }
  destruct (includes html "<head>") eqn:Hhead.
  { injection Hresult as <-. by apply Hput. }
  destruct (includes html "<body>") eqn:Hbody.
  { injection Hresult as <-. by apply Hput. }
  destruct (includes html "<html>") eqn:Hhtml.
  { injection Hresult as <-. by apply Hput. }
  by injection Hresult as <-.
Qed.

Lemma page_injection_witness :
  ∃ before after,
    "<html><head></head></html>" = before +:+ "<head>" +:+ after
    ∧ includes before "<head>" = false
    ∧ "<html><head>" +:+ newline +:+ scriptTag "app" +:+ "</head></html>"
      = before +:+ "<head>" +:+ newline +:+ scriptTag "app" +:+ after.
Proof.
  exact (page_injection everywhere sampleOptions "<html><head></head></html>" "/index.html"
           _ eq_refl eq_refl).
Defined.

End PageProps.

(** ** More on capture *)

Module CaptureMoreProps.
Import Client Samples.

Lemma formatArg_object (o : ObjectOf JsValue) (acc acc' : Collected) (segment : string) :
  extraArg (VObject o) = true →
  formatArg (VObject o) acc = Normal (segment, acc') →
  ∃ snapshot,
    segment = placeholder (S (length (c_extra acc)))
    ∧ c_extra acc' = c_extra acc ++ [snapshot]
    ∧ match jsonRoundTrip o with
      | Some j => snapshot = j
      | None => ∃ s, stringResult o = Some s ∧ snapshot = JStr s
      end.
Proof.
  destruct o as [cal err st ts sr js]; simpl. intros Hx.
  destruct cal, err; try discriminate; simpl in Hx.
  unfold errorLike; simpl.
  destruct (isString (typeof st)); try discriminate. exec.
  destruct js as [j|]; exec.
  - intros [= <- <-]. exists j. simpl. by rewrite length_app, Nat.add_1_r.
  - destruct sr as [s|]; exec; [|discriminate].
    intros [= <- <-]. exists (JStr s). simpl. rewrite length_app, Nat.add_1_r. eauto.
Qed.

Lemma mapArgs_object (args : list JsValue) :
  ∀ acc segments acc',
    mapArgs args acc = Normal (segments, acc') →
    ∀ i o, args !! i = Some (VObject o) → extraArg (VObject o) = true →
      ∃ snapshot,
        segments !! i
        = Some (placeholder (length (c_extra acc) + S (extraCount (take i args))))
        ∧ c_extra acc' !! (length (c_extra acc) + extraCount (take i args)) = Some snapshot
        ∧ match jsonRoundTrip o with
          | Some j => snapshot = j
          | None => ∃ s, stringResult o = Some s ∧ snapshot = JStr s
          end.
Proof.
  induction args as [|arg rest IH]; intros acc segments acc'; simpl.
  - intros _ i o Hi. simplify_eq.
  - destruct (formatArg arg acc) as [[segment acc1]|] eqn:Harg; exec; [|discriminate].
    destruct (mapArgs rest acc1) as [[segments' acc2]|] eqn:Hrest; exec; [|discriminate].
    intros [= <- <-] [|i] o Hi Hx; simpl in Hi; simpl take; simpl extraCount.
    + simplify_eq.
      destruct (formatArg_object _ _ _ _ Hx Harg) as (snapshot & -> & Hextra & Hsnap).
      destruct (CaptureProps.mapArgs_length _ _ _ _ Hrest) as (_ & _ & [more Hmore] & _).
      exists snapshot. rewrite Nat.add_0_r, Nat.add_1_r. split; [done|]. split; [|done].
      rewrite Hmore, Hextra, <- app_assoc.
      by rewrite lookup_app_r, Nat.sub_diag by lia.
    + destruct (IH _ _ _ Hrest i o Hi Hx) as (snapshot & Hseg & Hval & Hsnap).
      destruct (CaptureProps.formatArg_extra_length _ _ _ _ Harg) as [Hone _].
      exists snapshot. simpl. rewrite Hseg, <- Hval, Hone.
      split; [do 2 f_equal; destruct (extraArg arg); lia|].
      split; [f_equal; destruct (extraArg arg); lia|done].
Qed.

(** An object that does not survive the JSON round trip (a circular one,
    say) still gets its placeholder, and its place in [extra] is taken by
    its [String()] form. *)
Theorem unserializable_fallback (rt : Runtime) (ctx lvl : string) (args : list JsValue)
    (entry : LogEntry) (i : nat) (o : ObjectOf JsValue) :
  createLogEntry rt ctx lvl args = Normal entry →
  args !! i = Some (VObject o) →
  extraArg (VObject o) = true →
  jsonRoundTrip o = None →
  let n := S (extraCount (take i args)) in
  ∃ (segments : list string) (s : string),
    message entry = join segments " "
    ∧ segments !! i = Some ("[extra#" +:+ lengthToString n +:+ "]")
    ∧ stringResult o = Some s
    ∧ extra entry !! (n - 1) = Some (JStr s).
Proof.
  intros Hentry Hi Hx Hj n.
  destruct (CaptureProps.createLogEntry_inv _ _ _ _ _ Hentry)
    as (segments & acc & Hmap & Hmsg & _ & Hextra & _).
  destruct (mapArgs_object _ _ _ _ Hmap i o Hi Hx) as (snapshot & Hseg & Hval & Hsnap).
  rewrite Hj in Hsnap. destruct Hsnap as (s & Hs & ->).
  exists segments, s. simpl in Hseg, Hval. repeat split; try done.
  rewrite Hextra. subst n. simpl. by rewrite Nat.sub_0_r.
Qed.

Lemma unserializable_fallback_witness :
  ∃ (segments : list string) (s : string),
    "user [extra#1]" = join segments " "
    ∧ segments !! 1 = Some "[extra#1]"
    ∧ Some "[object Object]" = Some s
    ∧ [JStr "[object Object]"] !! 0 = Some (JStr s).
Proof.
  exact (unserializable_fallback runtime0 "app" "log" [VString "user"; circularObject]
           _ 1 _ eq_refl eq_refl eq_refl eq_refl).
Defined.

Lemma framesOf_short (arg : JsValue) :
  length (framesOf arg) ≤ 1 ∧ Forall (λ frame, frame ≠ EmptyString) (framesOf arg).
Proof.
  unfold framesOf.
  destruct (errorLike arg) as [[]|]; simpl; try (split; [lia|done]).
  destruct (callToString arg); simpl; try (split; [lia|done]).
  destruct (getStack arg) as [st|]; simpl; try (split; [lia|done]).
  destruct (toBoolean st); simpl; try (split; [lia|done]).
  destruct (callToString st) as [text|]; simpl; try (split; [lia|done]).
  destruct (String.eqb_spec (stripStack text a) EmptyString); simpl; (split; [lia|]); [done|].
  by constructor.
Qed.

(** In every record: [extra] has one item per object argument, no stack
    frame is empty, and there are no more stack frames than arguments. *)
Theorem record_shape (rt : Runtime) (ctx lvl : string) (args : list JsValue)
    (entry : LogEntry) :
  createLogEntry rt ctx lvl args = Normal entry →
  length (extra entry) = extraCount args
  ∧ Forall (λ frame, frame ≠ EmptyString) (stacks entry)
  ∧ length (stacks entry) ≤ length args
  ∧ level entry = lvl ∧ module entry = ctx ∧ timestamp entry = now rt.
Proof.
  intros Hentry.
  destruct (CaptureProps.createLogEntry_inv _ _ _ _ _ Hentry)
    as (segments & acc & Hmap & _ & Hstacks & Hextra & Hlvl & Hctx).
  destruct (CaptureProps.mapArgs_length _ _ _ _ Hmap) as (_ & Hcount & _ & Hframes).
  rewrite Hstacks, Hextra, Hframes, Hcount. simpl.
  repeat split; try done.
  - apply Forall_concat, Forall_fmap, Forall_forall. intros arg _. apply framesOf_short.
  - clear. induction args as [|arg rest IH]; [simpl; lia|].
    rewrite fmap_cons, concat_cons, length_app, length_cons.
    pose proof (framesOf_short arg) as [Hshort _]. lia.
  - unfold createLogEntry in Hentry. rewrite Hmap in Hentry.
    by injection Hentry as <-.
Qed.

Lemma record_shape_witness :
  length [JObj [("id", JNum (integer 7))]; JStr "[object Object]"] = 2
  ∧ Forall (λ frame, frame ≠ EmptyString) ([] : list string)
  ∧ 0 ≤ 5
  ∧ "log" = "log" ∧ "app" = "app" ∧ 0%Z = 0%Z.
Proof.
  exact (record_shape runtime0 "app" "log"
           [VString "user"; plainObject (JObj [("id", JNum (integer 7))]); VUndefined; VNumber (integer 3);
            circularObject] _ eq_refl).
Defined.



End CaptureMoreProps.

(** ** More on batching *)

Module LedgerProps.
Import Client Samples Ledger.

Lemma flushLogs_handedOver (st : State) : handedOver (flushLogs st) = handedOver st.
Proof.
  unfold handedOver, flushLogs. destruct (logBuffer st) as [|e b] eqn:Hb; [by rewrite Hb|].
  simpl. destruct (flushTimeout st); simpl;
    by rewrite concat_app, app_nil_r; simpl; rewrite app_nil_r.
Qed.

Lemma addToBuffer_handedOver (e : LogEntry) (st : State) :
  handedOver (addToBuffer e st) = handedOver st ++ [e].
Proof.
  unfold addToBuffer. destruct (decide _).
  - rewrite flushLogs_handedOver. unfold handedOver. simpl. by rewrite app_assoc.
  - unfold handedOver. destruct (flushTimeout _); simpl; by rewrite app_assoc.
Qed.

Lemma console_handedOver (cfg : Config) (rt : Runtime) (lvl : Level)
    (args : list JsValue) (st : State) :
  ∃ added, handedOver (final (console cfg rt lvl args st)) = handedOver st ++ added
           ∧ length added ≤ 1.
Proof.
  unfold console. destruct (decide _).
  - destruct (createLogEntry _ _ _ _) as [entry|]; simpl.
    + exists [entry]. by rewrite addToBuffer_handedOver.
    + exists []. by rewrite app_nil_r; simpl; auto.
  - exists []. by rewrite app_nil_r; simpl; auto.
Qed.

(** Whatever happens to the script, the records it has taken charge of
    (sent batch after batch, then buffered) only grow at the end, by at
    most one record per event: none is dropped, repeated or moved before
    it reaches [fetch].  Enqueuing a list of records appends exactly
    them, in order. *)
Theorem records_kept (cfg : Config) :
  (∀ (ev : Event) (st : State),
     ∃ added, handedOver (step cfg ev st) = handedOver st ++ added ∧ length added ≤ 1)
  ∧ (∀ (entries : list LogEntry) (st : State),
       handedOver (addAll entries st) = handedOver st ++ entries).
Proof.
  split.
  - intros [rt lvl args|entry|h| | |rt r logs|context] st; simpl.
    + apply console_handedOver.
    + exists [entry]. by rewrite addToBuffer_handedOver.
    + exists []. rewrite app_nil_r. split; [|simpl; lia].
      unfold timeoutFires. destruct (decide _); [|done].
      by rewrite flushLogs_handedOver.
    + exists []. rewrite app_nil_r. split; [|simpl; lia]. apply flushLogs_handedOver.
    + exists []. rewrite app_nil_r. split; [|simpl; lia]. apply flushLogs_handedOver.
    + destruct r as [status|errorMessage]; simpl.
      * exists []. by rewrite app_nil_r; simpl; auto.
      * destruct (SILENT_ON_ERROR cfg); simpl; [|apply console_handedOver].
        exists []. by rewrite app_nil_r; simpl; auto.
    + exists []. by rewrite app_nil_r; simpl; auto.
  - unfold addAll. induction entries as [|e rest IH]; intros st; simpl.
    + by rewrite app_nil_r.
    + by rewrite IH, addToBuffer_handedOver, <- app_assoc.
Qed.

Lemma flushLogs_wellSized (st : State) :
  Forall wellSized (requests st) →
  length (logBuffer st) ≤ MAX_BUFFER_SIZE →
  Forall wellSized (requests (flushLogs st)) ∧ logBuffer (flushLogs st) = [].
Proof.
  unfold flushLogs. intros Hreq Hlen.
  destruct (logBuffer st) as [|e b] eqn:Hb; [by rewrite Hb|].
  simpl. assert (Forall wellSized (requests st ++ [e :: b])) as Hnew.
  { apply Forall_app. split; [done|]. constructor; [|done].
    unfold wellSized. simpl in *. lia. }
  by destruct (flushTimeout st).
Qed.

Lemma addToBuffer_wellSized (e : LogEntry) (st : State) :
  Forall wellSized (requests st) →
  length (logBuffer st) < MAX_BUFFER_SIZE →
  Forall wellSized (requests (addToBuffer e st))
  ∧ length (logBuffer (addToBuffer e st)) < MAX_BUFFER_SIZE.
Proof.
  intros Hreq Hlen. unfold addToBuffer.
  destruct (decide _) as [Hfull|Hroom].
  - destruct (flushLogs_wellSized (setLogBuffer (logBuffer st ++ [e]) st)) as [Hsized Hempty].
    + done.
    + simpl. rewrite length_app. simpl. lia.
    + split; [done|]. rewrite Hempty. unfold MAX_BUFFER_SIZE. simpl. lia.
  - simpl in Hroom. destruct (flushTimeout _); simpl; split; (done || lia).
Qed.

Lemma console_wellSized (cfg : Config) (rt : Runtime) (lvl : Level)
    (args : list JsValue) (st : State) :
  Forall wellSized (requests st) →
  length (logBuffer st) < MAX_BUFFER_SIZE →
  Forall wellSized (requests (final (console cfg rt lvl args st)))
  ∧ length (logBuffer (final (console cfg rt lvl args st))) < MAX_BUFFER_SIZE.
Proof.
  intros Hreq Hlen. unfold console. destruct (decide _); [|done].
  destruct (createLogEntry _ _ _ _); [|done].
  by apply addToBuffer_wellSized.
Qed.

(** The script never sends an empty batch nor one of more than
    [MAX_BUFFER_SIZE] records, and its buffer always holds fewer than
    [MAX_BUFFER_SIZE]. *)
Theorem batches_well_sized (cfg : Config) (st : State) :
  reachable cfg st →
  Forall (λ batch, 0 < length batch ≤ 50) (requests st)
  ∧ length (logBuffer st) < 50.
Proof.
  change (reachable cfg st →
          Forall wellSized (requests st) ∧ length (logBuffer st) < MAX_BUFFER_SIZE).
  induction 1 as [|ev st _ [Hreq Hlen]].
  - split; [done|]. unfold MAX_BUFFER_SIZE. simpl. lia.
  - destruct ev as [rt lvl args|entry|h| | |rt r logs|context]; simpl.
    + by apply console_wellSized.
    + by apply addToBuffer_wellSized.
    + unfold timeoutFires. destruct (decide _); [|done].
      destruct (flushLogs_wellSized (clearTimeout h st)) as [Hsized ->];
        [done|simpl; lia|]. split; [done|]. unfold MAX_BUFFER_SIZE. simpl. lia.
    + destruct (flushLogs_wellSized st) as [Hsized Hempty]; [done|lia|].
      unfold intervalFires. rewrite Hempty. split; [done|].
      unfold MAX_BUFFER_SIZE. simpl. lia.
    + destruct (flushLogs_wellSized st) as [Hsized Hempty]; [done|lia|].
      rewrite Hempty. split; [done|]. unfold MAX_BUFFER_SIZE. simpl. lia.
    + destruct r as [status|errorMessage]; simpl; [done|].
      destruct (SILENT_ON_ERROR cfg); simpl; [done|]. by apply console_wellSized.
    + done.
Qed.

Lemma batches_well_sized_witness :
  Forall (λ batch, 0 < length batch ≤ 50)
    (requests (step defaultConfig BeforeUnload
                 (step defaultConfig (Enqueue (sampleEntry 0)) initialState)))
  ∧ length (logBuffer (step defaultConfig BeforeUnload
                         (step defaultConfig (Enqueue (sampleEntry 0)) initialState))) < 50.
Proof.
  exact (batches_well_sized defaultConfig _
           (reachable_step _ BeforeUnload _
              (reachable_step _ (Enqueue (sampleEntry 0)) _ (reachable_initial _)))).
Defined.

(** At most one flush timeout is pending: the one [flushTimeout] holds,
    set for [FLUSH_DELAY]; one is pending only while records are
    buffered, so none is pending when the buffer is empty. *)
Theorem one_pending_timeout (cfg : Config) (st : State) :
  reachable cfg st →
  match flushTimeout st with
  | None => timeouts st = []
  | Some h => timeouts st = [(h, FLUSH_DELAY)] ∧ logBuffer st ≠ []
  end
  ∧ length (timeouts st) ≤ 1
  ∧ (logBuffer st = [] → flushTimeout st = None ∧ timeouts st = []).
Proof.
  intros Hst%TransportProps.reachable_consistent. unfold consistent in Hst.
  destruct (flushTimeout st) as [h|].
  - destruct Hst as [-> Hbuffer]. split; [done|]. split; [simpl; lia|].
    intros Hempty. by destruct Hbuffer.
  - rewrite Hst. split; [done|]. split; [simpl; lia|]. done.
Qed.

Lemma one_pending_timeout_witness :
  (timeouts (step defaultConfig (Enqueue (sampleEntry 0)) initialState)
   = [(2%positive, FLUSH_DELAY)]
   ∧ logBuffer (step defaultConfig (Enqueue (sampleEntry 0)) initialState) ≠ [])
  ∧ length (timeouts (step defaultConfig (Enqueue (sampleEntry 0)) initialState)) ≤ 1
  ∧ (logBuffer (step defaultConfig (Enqueue (sampleEntry 0)) initialState) = [] →
     flushTimeout (step defaultConfig (Enqueue (sampleEntry 0)) initialState) = None
     ∧ timeouts (step defaultConfig (Enqueue (sampleEntry 0)) initialState) = []).
Proof.
  exact (one_pending_timeout defaultConfig _
           (reachable_step _ (Enqueue (sampleEntry 0)) _ (reachable_initial _))).
Defined.

(** Fewer than [MAX_BUFFER_SIZE] records enqueued into an empty queue go
    out together, as one batch in their order, when the timeout set by
    the first of them fires; nothing stays buffered or pending. *)
Theorem timeout_sends_buffer (cfg : Config) (st0 : State) (entries : list LogEntry) :
  reachable cfg st0 → logBuffer st0 = [] →
  entries ≠ [] → length entries < MAX_BUFFER_SIZE →
  let st := timeoutFires (nextHandle st0) (addAll entries st0) in
  requests st = requests st0 ++ [entries]
  ∧ logBuffer st = [] ∧ flushTimeout st = None ∧ timeouts st = [].
Proof.
  intros Hreach Hb Hne Hlen st.
  apply TransportProps.reachable_consistent in Hreach. unfold consistent in Hreach.
  destruct (flushTimeout st0) as [h|] eqn:Hh; [by destruct Hreach|].
  subst st. rewrite TransportProps.addAll_below by done.
  unfold timeoutFires. simpl. rewrite Hreach. simpl.
  rewrite decide_True by (apply list_elem_of_singleton; done).
  unfold flushLogs. simpl. destruct entries as [|e rest]; [done|]. simpl.
  by rewrite (filter_cons_False _ (nextHandle st0, FLUSH_DELAY))
    by (simpl; intros Hne'; by apply Hne').
Qed.

Lemma timeout_sends_buffer_witness :
  let st := timeoutFires (nextHandle initialState)
              (addAll (sampleEntry <$> seq 0 3) initialState) in
  requests st = requests initialState ++ [sampleEntry <$> seq 0 3]
  ∧ logBuffer st = [] ∧ flushTimeout st = None ∧ timeouts st = [].
Proof.
  refine (timeout_sends_buffer defaultConfig initialState (sampleEntry <$> seq 0 3)
            (reachable_initial _) eq_refl _ _).
  - discriminate.
  - unfold MAX_BUFFER_SIZE. simpl. lia.
Defined.

Lemma addToBuffer_printed (e : LogEntry) (st : State) :
  printed (addToBuffer e st) = printed st.
Proof.
  unfold addToBuffer, flushLogs. simpl.
  destruct (decide _).
  - destruct (logBuffer st ++ [e]); simpl; [done|]. by destruct (flushTimeout st).
  - by destruct (flushTimeout st).
Qed.

(** A console call always reaches the browser's own console first, with
    its arguments untouched, whether or not the level is forwarded and
    even when building the record throws; for a level that is not
    forwarded nothing else happens. *)
Theorem local_output_kept (cfg : Config) (rt : Runtime) (lvl : Level)
    (args : list JsValue) (st : State) :
  printed (final (console cfg rt lvl args st)) = printed st ++ [(lvl, args)]
  ∧ if decide (lvl ∈ levels cfg) then True
    else console cfg rt lvl args st
         = {| final := originalMethod lvl args st; thrown := None |}.
Proof.
  unfold console. destruct (decide _); [|done].
  split; [|done]. destruct (createLogEntry _ _ _ _); simpl; [|done].
  by rewrite addToBuffer_printed.
Qed.

(** With silencing off and [warn] among the forwarded levels, the warning
    about a failed delivery goes through the patched [console.warn]: it
    is printed locally and is itself captured as a record of level
    "warn", to be sent with the next batch. *)
Theorem failure_warning_captured (cfg : Config) (rt : Runtime) (errorMessage : string)
    (logs : list LogEntry) (st : State) :
  SILENT_ON_ERROR cfg = false →
  Warn ∈ levels cfg →
  let result := sendLogsSettled cfg rt (Rejected errorMessage) logs st in
  thrown result = None
  ∧ ∃ entry,
      handedOver (final result) = handedOver st ++ [entry]
      ∧ level entry = "warn"
      ∧ message entry = "[Console Forward] Failed to send logs: " +:+ errorMessage
      ∧ module entry = currentModuleContext st
      ∧ stacks entry = [] ∧ extra entry = [].
Proof.
  intros Hsilent Hwarn. simpl. rewrite Hsilent. simpl.
  unfold console. rewrite decide_True by done. exec.
  split; [done|]. eexists. rewrite addToBuffer_handedOver. by repeat split.
Qed.

Lemma failure_warning_captured_witness :
  let result := sendLogsSettled verboseConfig runtime0 (Rejected "Failed to fetch")
                  [sampleEntry 0] initialState in
  thrown result = None
  ∧ ∃ entry,
      handedOver (final result) = handedOver initialState ++ [entry]
      ∧ level entry = "warn"
      ∧ message entry = "[Console Forward] Failed to send logs: " +:+ "Failed to fetch"
      ∧ module entry = currentModuleContext initialState
      ∧ stacks entry = [] ∧ extra entry = [].
Proof.
  refine (failure_warning_captured verboseConfig runtime0 "Failed to fetch"
            [sampleEntry 0] initialState eq_refl _).
  by apply list_elem_of_In; right; left.
Defined.

End LedgerProps.

(** ** More on the middleware *)

Module IntakeProps.
Import Server Records Intake.

#[local] Arguments get : simpl never.

Lemma get_defined (log : Json) (k : string) :
  log ≠ JNull → ∃ v, get (Some log) k = Normal v.
Proof. unfold get. destruct log; try done; eauto. Qed.

(** Induction on a parsed value, through the items of its arrays. *)
Lemma Json_nested_ind (P : Json → Prop) :
  P JNull → (∀ b, P (JBool b)) → (∀ n, P (JNum n)) → (∀ s, P (JStr s)) →
  (∀ items, Forall P items → P (JArr items)) →
  (∀ fields, P (JObj fields)) →
  ∀ v, P v.
Proof.
  intros Hnull Hbool Hnum Hstr Harr Hobj. fix IH 1.
  intros [|b|n|s|items|fields];
    [exact Hnull|apply Hbool|apply Hnum|apply Hstr| |apply Hobj].
  apply Harr. induction items as [|x xs IHxs]; constructor; [apply IH|exact IHxs].
Qed.

Lemma toString_array (items : list Json) :
  toString (JArr items) = parts ← elements items; Normal (join parts ",").
Proof. reflexivity. Qed.

Lemma elements_returns (items : list Json) :
  Forall (λ x, returned (toString x) = printable x) items →
  returned (elements items) = forallb printable items.
Proof.
  induction 1 as [|x xs Hx _ IH]; [done|]. cbn [elements forallb].
  rewrite <- Hx, <- IH.
  destruct x; try (by destruct (elements xs)); destruct (toString _); try done;
    by destruct (elements xs).
Qed.

(** ToString throws exactly on what is not printable. *)
Lemma toString_returns (v : Json) : returned (toString v) = printable v.
Proof.
  induction v as [|[]| | |items IH|fields] using Json_nested_ind; try done.
  - rewrite toString_array. cbn [printable]. rewrite <- (elements_returns _ IH).
    by destruct (elements items).
  - simpl. by destruct (hasOwn "toString" fields).
Qed.

Lemma template_returns (v : JsonOrUndefined) :
  returned (template v) = printableOrUndefined v.
Proof. destruct v; [apply toString_returns|done]. Qed.

Lemma falsy_printable (v : JsonOrUndefined) : truthy v = false → printableOrUndefined v = true.
Proof. by destruct v as [[]|]. Qed.

Lemma greaterThanZero_returns (v : JsonOrUndefined) :
  returned (greaterThanZero v) = printableOrUndefined v.
Proof.
  destruct v as [[]|]; try done; unfold greaterThanZero;
    rewrite <- template_returns; cbn [template]; by destruct (toString _).
Qed.

Lemma nonEmpty_returns (v : JsonOrUndefined) : returned (nonEmpty v) = measurable v.
Proof.
  unfold nonEmpty, measurable, property. destruct (truthy v) eqn:Hv.
  - destruct v as [x|]; [|done].
    destruct (get_defined x "length") as [len ->]; [by intros ->|].
    exec. apply greaterThanZero_returns.
  - by destruct v.
Qed.

Lemma moduleName_printable (log : Json) :
  printable (moduleName log) = printableOrUndefined (property log "module").
Proof.
  unfold moduleName, property. destruct (get (Some log) "module") as [[m|]|]; try done.
  destruct (truthy (Some m)) eqn:Hm; [done|]. by rewrite (falsy_printable _ Hm).
Qed.

Lemma mapStacks_defined (items : list Json) :
  forallb isStringItem items = true → ∃ frames, mapStacks items = Normal frames.
Proof.
  induction items as [|[] rest IH]; simpl; try discriminate; [by eauto|].
  intros Hrest. destruct (IH Hrest) as [frames ->]. exec. eauto.
Qed.

Lemma mapStacks_throws (items : list Json) :
  forallb isStringItem items = false → ∃ e, mapStacks items = Throw e.
Proof.
  induction items as [|[] rest IH]; simpl; try discriminate; try by eauto.
  intros Hrest. destruct (IH Hrest) as [e ->]. exec. eauto.
Qed.

Lemma stacksMap_returns (v : JsonOrUndefined) :
  returned (stacksMap v) = arrayOfStrings v.
Proof.
  destruct v as [[| | | |items|]|]; try done. simpl.
  destruct (forallb isStringItem items) eqn:Hitems.
  - by destruct (mapStacks_defined _ Hitems) as [frames ->].
  - by destruct (mapStacks_throws _ Hitems) as [e ->].
Qed.

Lemma stacksJoin_returns (v : JsonOrUndefined) (sep : string) :
  arrayOfStrings v = true → returned (stacksJoin v sep) = true.
Proof.
  destruct v as [[| | | |items|]|]; try done. simpl. intros Hitems.
  assert (returned (elements items) = true) as Hparts.
  { induction items as [|[] rest IH]; try done. simpl in *.
    specialize (IH Hitems). by destruct (elements rest). }
  by destruct (elements items).
Qed.

(** Rendering throws exactly on the records that are malformed for
    another reason than their module name. *)
Lemma render_returns (log : Json) (logger : Logger) :
  log ≠ JNull →
  returned (render log logger)
  = printableOrUndefined (property log "url")
    && printableOrUndefined (property log "level")
    && printableOrUndefined (property log "message")
    && measurable (property log "stacks")
    && negb (filled (property log "stacks") && negb (arrayOfStrings (property log "stacks")))
    && measurable (property log "extra").
Proof.
  intros Hlog. unfold render, property, filled.
  destruct (get_defined log "url" Hlog) as [urlValue ->].
  destruct (get_defined log "level" Hlog) as [levelValue ->].
  destruct (get_defined log "message" Hlog) as [messageValue ->].
  destruct (get_defined log "stacks" Hlog) as [stacksValue ->].
  destruct (get_defined log "extra" Hlog) as [extraValue ->].
  rewrite <- !nonEmpty_returns, <- stacksMap_returns.
  assert (returned (if truthy urlValue
                    then url ← template urlValue; Normal (" (" +:+ url +:+ ")")
                    else Normal EmptyString)
          = printableOrUndefined urlValue) as Hurl.
  { destruct (truthy urlValue) eqn:Htruthy; [|by rewrite falsy_printable].
    rewrite <- template_returns. by destruct (template urlValue). }
  rewrite <- Hurl, <- !template_returns.
  exec.
  destruct (if truthy urlValue then _ else _) as [location|]; exec; [|done].
  destruct (template levelValue) as [level|]; exec; [|done].
  destruct (template messageValue) as [body|]; exec; [|done].
  destruct (nonEmpty stacksValue) as [[|]|] eqn:Hstacks; exec; [| |done].
  - destruct (stacksMap stacksValue) as [frames|] eqn:Hmap; exec; [|done].
    destruct (nonEmpty extraValue) as [hasExtra|]; exec; [|done].
    destruct (isLevel levelValue "error"); exec.
    + assert (arrayOfStrings stacksValue = true) as Hstrings
        by (by rewrite <- stacksMap_returns, Hmap).
      pose proof (stacksJoin_returns stacksValue Plugin.newline Hstrings) as Hjoin.
      by destruct (stacksJoin stacksValue Plugin.newline).
    + by destruct (isLevel levelValue "warn").
  - destruct (nonEmpty extraValue) as [hasExtra|]; exec; [|done].
    destruct (isLevel levelValue "error"); exec; [done|].
    by destruct (isLevel levelValue "warn").
Qed.

Lemma fresh_getOrCreateLogger (moduleName : Json) (st : State) :
  fresh st → fresh (getOrCreateLogger moduleName st).2.
Proof.
  intros Hst i logger. unfold getOrCreateLogger.
  assert (identities st
          ≤ (if isReference moduleName then S (identities st) else identities st)) as Hle
    by (destruct (isReference moduleName); lia).
  destruct (loggerCache st !! mapKey moduleName st) as [old|] eqn:Hold; simpl.
  - intros Hin%Hst. lia.
  - destruct (toString moduleName) as [name|e]; simpl.
    + destruct (decide (mapKey moduleName st = KeyObject i)) as [Hkey|Hkey].
      * intros _. destruct moduleName; simpl in *; try discriminate;
          injection Hkey as <-; lia.
      * rewrite lookup_insert_ne by done. intros Hin%Hst. lia.
    + intros Hin%Hst. lia.
Qed.

(** A name that cannot be printed is an object or an array, which is
    not in the map: the logger is to be made, and making it throws. *)
Lemma getOrCreateLogger_returns (moduleName : Json) (st : State) :
  fresh st → returned (getOrCreateLogger moduleName st).1 = printable moduleName.
Proof.
  intros Hst. rewrite <- toString_returns. unfold getOrCreateLogger.
  destruct (loggerCache st !! mapKey moduleName st) as [old|] eqn:Hold; simpl.
  - destruct moduleName as [|[]| | | |]; try done; simpl in Hold; apply Hst in Hold; lia.
  - by destruct (toString moduleName).
Qed.

(** In a state the server can be in, the callback of [forEach] throws
    exactly on the malformed records. *)
Lemma forward_returns (log : Json) (st : State) :
  fresh st → returned (forward log st).1 = negb (malformed log).
Proof.
  intros Hst. rewrite ServerProps.forward_factor.
  assert (log = JNull ∨ log ≠ JNull) as [->|Hlog] by (destruct log; auto); [done|].
  destruct (get_defined log "module" Hlog) as [m ->].
  pose proof (getOrCreateLogger_returns (moduleName log) st Hst) as Hlogger.
  rewrite moduleName_printable in Hlogger.
  assert (malformed log
          = negb (printableOrUndefined (property log "module"))
            || negb (printableOrUndefined (property log "url"))
            || negb (printableOrUndefined (property log "level"))
            || negb (printableOrUndefined (property log "message"))
            || negb (measurable (property log "stacks"))
            || (filled (property log "stacks")
                && negb (arrayOfStrings (property log "stacks")))
            || negb (measurable (property log "extra"))) as -> by by destruct log.
  destruct (getOrCreateLogger (moduleName log) st) as [[logger|e] st1]; simpl in *.
  - rewrite <- Hlogger. simpl.
    assert (returned (match render log logger with
                      | Normal line => emit line st1
                      | Throw e => (Throw e, st1)
                      end).1 = returned (render log logger)) as ->
      by (by destruct (render log logger)).
    rewrite (render_returns log logger Hlog).
    by destruct (printableOrUndefined (property log "url")),
         (printableOrUndefined (property log "level")),
         (printableOrUndefined (property log "message")),
         (measurable (property log "stacks")), (filled (property log "stacks")),
         (arrayOfStrings (property log "stacks")), (measurable (property log "extra")).
  - by rewrite <- Hlogger.
Qed.





(** *** What the map of loggers keeps *)

Section Registry.

(** A property of the map and of the counts of loggers and of keys that
    [getOrCreateLogger] keeps is kept by all the middleware does. *)
Variable Q : State → Prop.
Hypothesis Q_extensional :
  ∀ st st',
    loggerCache st' = loggerCache st → created st' = created st →
    identities st' = identities st → Q st → Q st'.
Hypothesis Q_getOrCreateLogger :
  ∀ moduleName st, Q st → Q (getOrCreateLogger moduleName st).2.

Lemma forward_keeps (log : Json) (st : State) : Q st → Q (forward log st).2.
Proof.
  intros Hst. rewrite ServerProps.forward_factor.
  destruct (get (Some log) "module"); [|done].
  pose proof (Q_getOrCreateLogger (moduleName log) st Hst) as Hst1.
  destruct (getOrCreateLogger (moduleName log) st) as [[logger|e] st1]; [|done].
  destruct (render log logger); [|done].
  simpl in *. by apply (Q_extensional st1).
Qed.

Lemma forEach_keeps (logs : list Json) : ∀ st, Q st → Q (forEach logs st).2.
Proof.
  induction logs as [|log rest IH]; intros st Hst; simpl; [done|].
  unfold andThen. pose proof (forward_keeps log st Hst) as Hst1.
  destruct (forward log st) as [[u|e] st1]; simpl in *; [by apply IH|done].
Qed.

Lemma onEnd_keeps (parsed : Completion Json) (st : State) : Q st → Q (onEnd parsed st).2.
Proof.
  intros Hst. unfold onEnd.
  destruct (batchOf parsed) as [logs|] eqn:Hbatch.
  - rewrite (ServerProps.processBody_batch _ _ _ Hbatch).
    pose proof (forEach_keeps logs st Hst) as Hst1.
    destruct (forEach logs st) as [[u|e] st1]; simpl in *; [done|].
    by apply (Q_extensional st1).
  - destruct (ServerProps.processBody_no_batch _ st Hbatch) as [e ->]. simpl.
    by apply (Q_extensional st).
Qed.

Lemma serve_keeps (bodies : list (Completion Json)) : ∀ st, Q st → Q (serve bodies st).
Proof.
  unfold serve. induction bodies as [|parsed rest IH]; intros st Hst; simpl; [done|].
  apply IH. by apply onEnd_keeps.
Qed.

End Registry.

Lemma named_getOrCreateLogger (moduleName : Json) (st : State) :
  named st → named (getOrCreateLogger moduleName st).2.
Proof.
  intros Hst. unfold getOrCreateLogger.
  destruct (loggerCache st !! mapKey moduleName st) as [old|] eqn:Hold; [done|].
  destruct (toString moduleName) as [name|e] eqn:Hname; [|done].
  intros s logger. simpl.
  destruct (decide (mapKey moduleName st = KeyString s)) as [Hkey|Hkey].
  - rewrite Hkey, lookup_insert_eq. intros [= <-]. simpl.
    destruct moduleName; simpl in Hkey; try discriminate.
    injection Hkey as ->. by injection Hname as <-.
  - rewrite lookup_insert_ne by done. apply Hst.
Qed.

Lemma numbered_getOrCreateLogger (moduleName : Json) (st : State) :
  numbered st → numbered (getOrCreateLogger moduleName st).2.
Proof.
  intros (Hsize & Hbelow & Hdistinct). unfold getOrCreateLogger.
  destruct (loggerCache st !! mapKey moduleName st) as [old|] eqn:Hold; [done|].
  destruct (toString moduleName) as [name|e]; [|done].
  split; [|split]; simpl.
  - by rewrite map_size_insert_None, Hsize.
  - intros k logger. destruct (decide (mapKey moduleName st = k)) as [<-|Hk].
    + rewrite lookup_insert_eq. intros [= <-]. simpl. lia.
    + rewrite lookup_insert_ne by done. intros Hin%Hbelow. lia.
  - intros k1 k2 l1 l2.
    destruct (decide (mapKey moduleName st = k1)) as [<-|Hk1];
      destruct (decide (mapKey moduleName st = k2)) as [<-|Hk2];
      rewrite ?lookup_insert_eq, ?lookup_insert_ne by done; try done.
    + intros [= <-] Hin%Hbelow Hid. simpl in Hid. lia.
    + intros Hin%Hbelow [= <-] Hid. simpl in Hid. lia.
    + apply Hdistinct.
Qed.

(** However many requests were served since the server started: the map
    holds as many loggers as were made, no two of them share a number,
    so no two names share a logger, and the logger of a name carries
    that name in brackets as its prefix. *)
Theorem logger_map_kept (bodies : list (Completion Json)) :
  let st := serve bodies initialState in
  size (loggerCache st) = created st
  ∧ (∀ k1 k2 logger,
       loggerCache st !! k1 = Some logger → loggerCache st !! k2 = Some logger → k1 = k2)
  ∧ (∀ s logger,
       loggerCache st !! KeyString s = Some logger → prefix logger = "[" +:+ s +:+ "]").
Proof.
  assert (numbered (serve bodies initialState)) as (Hsize & _ & Hdistinct).
  { apply serve_keeps.
    - intros st st' Hcache Hcreated. unfold numbered. by rewrite Hcache, Hcreated.
    - apply numbered_getOrCreateLogger.
    - split; [done|]. split; intros *; simpl; by rewrite lookup_empty. }
  assert (named (serve bodies initialState)) as Hnamed.
  { apply serve_keeps.
    - intros st st' Hcache _. unfold named. by rewrite Hcache.
    - apply named_getOrCreateLogger.
    - intros s logger. simpl. by rewrite lookup_empty. }
  split; [done|]. split; [|done].
  intros k1 k2 logger H1 H2. by apply (Hdistinct k1 k2 logger logger).
Qed.

(** *** Which requests are accepted *)

Lemma fresh_extensional (st st' : State) :
  loggerCache st' = loggerCache st → created st' = created st →
  identities st' = identities st → fresh st → fresh st'.
Proof. intros Hcache _ Hidentities Hst. unfold fresh. by rewrite Hcache, Hidentities. Qed.

(** The keys to come are new in every state the server reaches. *)
Lemma serve_fresh (bodies : list (Completion Json)) : fresh (serve bodies initialState).
Proof.
  apply serve_keeps.
  - apply fresh_extensional.
  - apply fresh_getOrCreateLogger.
  - intros i logger. simpl. by rewrite lookup_empty.
Qed.

Lemma forEach_returns (logs : list Json) :
  ∀ st, fresh st →
        returned (forEach logs st).1 = forallb (λ log, negb (malformed log)) logs.
Proof.
  induction logs as [|log rest IH]; intros st Hst; simpl; [done|].
  rewrite <- (forward_returns log st Hst). unfold andThen.
  pose proof (forward_keeps fresh fresh_extensional fresh_getOrCreateLogger log st Hst)
    as Hst1.
  destruct (forward log st) as [[u|e] st1]; simpl in *; [by apply IH|done].
Qed.

Lemma accepted_iff (parsed : Completion Json) (st : State) :
  fresh st →
  (status (onEnd parsed st).1 = 200
   ↔ ∃ logs, batchOf parsed = Some logs
             ∧ forallb (λ log, negb (malformed log)) logs = true)
  ∧ (status (onEnd parsed st).1 = 200 ∨ status (onEnd parsed st).1 = 400).
Proof.
  intros Hst. unfold onEnd.
  destruct (batchOf parsed) as [logs|] eqn:Hbatch.
  - rewrite (ServerProps.processBody_batch _ _ _ Hbatch).
    pose proof (forEach_returns logs st Hst) as Hruns.
    destruct (forEach logs st) as [[u|e] st1]; simpl in *.
    + split; [|by left]. split; [by eauto|done].
    + split; [|by right]. split; [done|].
      intros (logs' & [= <-] & Hall). congruence.
  - destruct (ServerProps.processBody_no_batch _ st Hbatch) as [e ->]. simpl.
    split; [|by right]. split; [done|]. by intros (logs' & [=] & _).
Qed.

(** However many requests were served before, a request is answered
    with status 200 exactly when its body parses to something with a
    [logs] array none of whose items is malformed: [null], with a
    [module], [url], [level] or [message] that cannot be printed, with
    a [stacks] or [extra] whose [length] cannot be compared with zero,
    or with a [stacks] of a [length] above zero that is not an array of
    strings.  Every other request is answered with status 400. *)
Theorem request_accepted_iff (bodies : list (Completion Json)) (parsed : Completion Json) :
  let st := serve bodies initialState in
  (status (onEnd parsed st).1 = 200
   ↔ ∃ logs, batchOf parsed = Some logs
             ∧ forallb (λ log, negb (malformed log)) logs = true)
  ∧ (status (onEnd parsed st).1 = 200 ∨ status (onEnd parsed st).1 = 400).
Proof. intros st. apply accepted_iff, serve_fresh. Qed.


(** *** From the client to the terminal *)

Section WireProps.

Variable toISOString : Z → string.

Lemma wire_fields (entry : Client.LogEntry) :
  get (Some (wire toISOString entry)) "module" = Normal (Some (JStr (Client.module entry)))
  ∧ get (Some (wire toISOString entry)) "url" = Normal (JStr <$> Client.url entry)
  ∧ get (Some (wire toISOString entry)) "level" = Normal (Some (JStr (Client.level entry)))
  ∧ get (Some (wire toISOString entry)) "message"
    = Normal (Some (JStr (Client.message entry)))
  ∧ get (Some (wire toISOString entry)) "stacks"
    = Normal (Some (JArr (JStr <$> Client.stacks entry)))
  ∧ get (Some (wire toISOString entry)) "extra" = Normal (Some (JArr (Client.extra entry))).
Proof.
  unfold wire, get. by destruct (Client.url entry), (Client.userAgent entry).
Qed.

Lemma mapStacks_frames (frames : list string) :
  mapStacks (JStr <$> frames) = Normal (indentLines <$> frames).
Proof.
  induction frames as [|f rest IH]; [done|].
  rewrite !fmap_cons. cbn [mapStacks]. by rewrite IH.
Qed.

Lemma positive_length {A} (l : list A) :
  isPositive (integer (Z.of_nat (length l))) = match l with [] => false | _ => true end.
Proof. by destruct l. Qed.

Lemma prefix_refl (s : string) : String.prefix s s = true.
Proof. rewrite <- (PageProps.append_nil_r s) at 2. apply PluginProps.prefix_append. Qed.

Lemma prefix_longer (b x y : string) : String.prefix b ((b +:+ x) +:+ y) = true.
Proof. rewrite PluginProps.append_assoc. apply PluginProps.prefix_append. Qed.

(** The line a record of the client is rendered to. *)
Lemma render_wire (entry : Client.LogEntry) (logger : Logger) :
  ∃ line,
    render (wire toISOString entry) logger = Normal line
    ∧ channel line = channelFor (Client.level entry)
    ∧ String.prefix (headline entry) (text line) = true
    ∧ error (logOptions line)
      = if String.eqb (Client.level entry) "error"
        then Some (match Client.stacks entry with
                   | [] => None
                   | frames => Some (join frames Plugin.newline)
                   end)
        else None.
Proof.
  destruct (wire_fields entry) as (_ & Hurl & Hlevel & Hmessage & Hstacks & Hextra).
  unfold render. rewrite Hurl, Hlevel, Hmessage, Hstacks, Hextra. exec.
  unfold headline, channelFor, isLevel.
  assert ((if truthy (JStr <$> Client.url entry)
           then match template (JStr <$> Client.url entry) with
                | Normal url => Normal (" (" +:+ url +:+ ")")
                | Throw e => Throw e
                end
           else Normal EmptyString)
          = Normal match Client.url entry with
                   | Some u =>
                       if String.eqb u EmptyString then EmptyString else " (" +:+ u +:+ ")"
                   | None => EmptyString
                   end) as ->.
  { destruct (Client.url entry) as [u|]; [|done]. simpl. by destruct (String.eqb u _). }
  set (base := "[" +:+ Client.level entry +:+ "] " +:+ Client.message entry +:+ _).
  rewrite mapStacks_frames, ServerProps.elements_strings, length_fmap, !positive_length.
  cbv [mbind Completion_bind].
  destruct (Client.stacks entry) as [|frame frames] eqn:Hframes;
    destruct (Client.extra entry) as [|item items];
    (destruct (String.eqb (Client.level entry) "error");
     [|destruct (String.eqb (Client.level entry) "warn")]);
    cbv beta iota;
    (eexists; split; [reflexivity|]; cbn [channel text logOptions error];
     repeat split;
     first [apply prefix_refl | apply PluginProps.prefix_append | apply prefix_longer]).
Qed.

Lemma forward_wire (entry : Client.LogEntry) (st : State) :
  named st →
  ∃ line st',
    forward (wire toISOString entry) st = (Normal tt, st')
    ∧ named st'
    ∧ terminal st' = terminal st ++ [line]
    ∧ prefix (sink line) = "[" +:+ sinkName (Client.module entry) +:+ "]"
    ∧ channel line = channelFor (Client.level entry)
    ∧ String.prefix (headline entry) (text line) = true
    ∧ error (logOptions line)
      = if String.eqb (Client.level entry) "error"
        then Some (match Client.stacks entry with
                   | [] => None
                   | frames => Some (join frames Plugin.newline)
                   end)
        else None.
Proof.
  intros Hnamed. rewrite ServerProps.forward_factor.
  destruct (wire_fields entry) as (Hmodule & _).
  assert (moduleName (wire toISOString entry) = JStr (sinkName (Client.module entry)))
    as Hname.
  { unfold moduleName, sinkName. rewrite Hmodule. simpl.
    by destruct (String.eqb (Client.module entry) EmptyString). }
  rewrite Hmodule, Hname.
  pose proof (named_getOrCreateLogger (JStr (sinkName (Client.module entry))) st Hnamed)
    as Hnamed1.
  destruct (ServerProps.getOrCreateLogger_spec (JStr (sinkName (Client.module entry))) st)
    as (Hterm & _ & _ & Hcase).
  destruct (getOrCreateLogger (JStr (sinkName (Client.module entry))) st)
    as [[logger|e] st1]; simpl in Hnamed1, Hterm, Hcase; [|by destruct Hcase].
  destruct Hcase as [Hfiled _].
  destruct (render_wire entry logger) as (line & Hline & Hchannel & Htext & Herror).
  rewrite Hline. pose proof (ServerProps.render_sink _ _ _ Hline) as Hsink.
  exists line, (emit line st1).2.
  split; [done|]. split; [intros s other Hs; by apply (Hnamed1 s other)|].
  split; [simpl; by rewrite Hterm|].
  split; [rewrite Hsink; by apply (Hnamed1 _ _ Hfiled)|]. done.
Qed.

(** Every batch the client sends is accepted: the middleware answers
    200 and prints one line per record, in order, through the logger
    named after the record's module context (or "unknown" when that is
    empty), on the channel of its level, starting with
    "[level] message" and the origin in parentheses, with the stack
    frames as the attached error of an "error" record.  This holds in
    any state where the loggers carry their names. *)
Theorem client_batch_accepted (batch : list Client.LogEntry) (st : State) :
  named st →
  status (onEnd (wireBody toISOString batch) st).1 = 200
  ∧ ∃ lines,
      terminal (onEnd (wireBody toISOString batch) st).2 = terminal st ++ lines
      ∧ Forall2 (λ entry line,
           prefix (sink line) = "[" +:+ sinkName (Client.module entry) +:+ "]"
           ∧ channel line = channelFor (Client.level entry)
           ∧ String.prefix (headline entry) (text line) = true
           ∧ error (logOptions line)
             = if String.eqb (Client.level entry) "error"
               then Some (match Client.stacks entry with
                          | [] => None
                          | frames => Some (join frames Plugin.newline)
                          end)
               else None) batch lines.
Proof.
  intros Hnamed. unfold onEnd, wireBody.
  rewrite (ServerProps.processBody_batch _ (wire toISOString <$> batch)) by done.
  assert (∀ st, named st →
            ∃ st' lines,
              forEach (wire toISOString <$> batch) st = (Normal tt, st')
              ∧ terminal st' = terminal st ++ lines
              ∧ Forall2 (λ entry line,
                   prefix (sink line) = "[" +:+ sinkName (Client.module entry) +:+ "]"
                   ∧ channel line = channelFor (Client.level entry)
                   ∧ String.prefix (headline entry) (text line) = true
                   ∧ error (logOptions line)
                     = if String.eqb (Client.level entry) "error"
                       then Some (match Client.stacks entry with
                                  | [] => None
                                  | frames => Some (join frames Plugin.newline)
                                  end)
                       else None) batch lines) as Hrun.
  { clear st Hnamed. induction batch as [|entry rest IH]; intros st Hnamed.
    - exists st, []. simpl. by rewrite app_nil_r.
    - destruct (forward_wire entry st Hnamed)
        as (line & st1 & Hforward & Hnamed1 & Hterm & Hfacts).
      destruct (IH st1 Hnamed1) as (st' & lines & Hrest & Hterm' & Hall).
      exists st', (line :: lines). rewrite fmap_cons. simpl. unfold andThen.
      rewrite Hforward, Hrest, Hterm', Hterm, <- app_assoc.
      split; [done|]. split; [done|]. by constructor. }
  destruct (Hrun st Hnamed) as (st' & lines & -> & Hterm & Hall). simpl.
  split; [done|]. by exists lines.
Qed.

End WireProps.

Lemma client_batch_accepted_witness :
  status (onEnd (wireBody (λ _, "2024-01-01T00:00:00.000Z") [Samples.sampleEntry 1])
            initialState).1 = 200
  ∧ ∃ lines,
      terminal (onEnd (wireBody (λ _, "2024-01-01T00:00:00.000Z") [Samples.sampleEntry 1])
                  initialState).2 = terminal initialState ++ lines
      ∧ Forall2 (λ entry line,
           prefix (sink line) = "[" +:+ sinkName (Client.module entry) +:+ "]"
           ∧ channel line = channelFor (Client.level entry)
           ∧ String.prefix (headline entry) (text line) = true
           ∧ error (logOptions line)
             = if String.eqb (Client.level entry) "error"
               then Some (match Client.stacks entry with
                          | [] => None
                          | frames => Some (join frames Plugin.newline)
                          end)
               else None) [Samples.sampleEntry 1] lines.
Proof.
  refine (client_batch_accepted (λ _, "2024-01-01T00:00:00.000Z")
            [Samples.sampleEntry 1] initialState _).
  intros s logger. simpl. by rewrite lookup_empty.
Defined.

End IntakeProps.
